(** * ArgumentHandler: command-line scanning and validation

    A shallow embedding of [src/utility/ArgumentHandler.cpp]: the
    constructor, [processArguments] (the [getopt_long] loop with its
    per-option [switch]) and [checkArguments], together with models of
    the library functions the code calls ([std::stoi], [std::stod],
    [getopt_long]) and of [splitString] from [utility.h]. *)

From Stdlib Require Import ZArith List String Ascii Bool Lia.
From Corelib Require Import SpecFloat.
Import ListNotations.

Local Open Scope string_scope.
Local Open Scope Z_scope.

(** ** C++ exceptions and the outcome of a call *)

Inductive exn : Type :=
| runtime_error (what : string)
| invalid_argument (what : string)
| out_of_range (what : string).

Definition what (e : exn) : string :=
  match e with
  | runtime_error w | invalid_argument w | out_of_range w => w
  end.

(** A call returns normally, leaves by an exception, or has undefined
    behaviour (a [std::string] built from a null [char*]). *)
Inductive outcome (A : Type) : Type :=
| Normal (a : A)
| Thrown (e : exn)
| Undefined.
Arguments Normal {A} a.
Arguments Thrown {A} e.
Arguments Undefined {A}.

(** ** Characters and strings *)

Definition code (c : ascii) : Z := Z.of_N (N_of_ascii c).

(** [isspace] in the C locale: space and the controls 9..13. *)
Definition isspace (c : ascii) : bool :=
  (code c =? 32) || ((9 <=? code c) && (code c <=? 13)).

Definition isdigit (c : ascii) : bool :=
  (48 <=? code c) && (code c <=? 57).

Definition tolower (c : ascii) : ascii :=
  if (65 <=? code c) && (code c <=? 90)
  then ascii_of_N (N_of_ascii c + 32) else c.

(** Value of a hexadecimal digit, if [c] is one. *)
Definition xdigit (c : ascii) : option Z :=
  let n := code c in
  if (48 <=? n) && (n <=? 57) then Some (n - 48)
  else if (97 <=? n) && (n <=? 102) then Some (n - 87)
  else if (65 <=? n) && (n <=? 70) then Some (n - 55)
  else None.

Fixpoint skip_space (s : string) : string :=
  match s with
  | String c r => if isspace c then skip_space r else s
  | EmptyString => s
  end.

(** An optional sign: [true] for a minus. *)
Definition take_sign (s : string) : bool * string :=
  match s with
  | String "-" r => (true, r)
  | String "+" r => (false, r)
  | _ => (false, s)
  end.

(** The longest run of decimal digits at the head of [s], accumulated
    onto [acc]: the value, the number of digits read and the rest. *)
Fixpoint take_digits (s : string) (acc : Z) (n : Z) : Z * Z * string :=
  match s with
  | String c r =>
      if isdigit c then take_digits r (10 * acc + (code c - 48)) (n + 1)
      else (acc, n, s)
  | EmptyString => (acc, n, s)
  end.

Fixpoint take_xdigits (s : string) (acc : Z) (n : Z) : Z * Z * string :=
  match s with
  | String c r =>
      match xdigit c with
      | Some d => take_xdigits r (16 * acc + d) (n + 1)
      | None => (acc, n, s)
      end
  | EmptyString => (acc, n, s)
  end.

(** [s] starts with [p], letter case ignored; the rest of [s] when it does. *)
Fixpoint strip_prefix_ci (p s : string) : option string :=
  match p, s with
  | EmptyString, _ => Some s
  | String a p', String b s' =>
      if Ascii.eqb (tolower a) (tolower b) then strip_prefix_ci p' s' else None
  | String _ _, EmptyString => None
  end.

(** ** std::stoi

    [strtol] in base 10 on the string: leading white space, an optional
    sign, then digits; trailing characters are ignored.  No digit at
    all is [std::invalid_argument]; a value that does not fit [int] is
    [std::out_of_range]. *)

Definition INT_MIN : Z := -2147483648.
Definition INT_MAX : Z := 2147483647.

Definition std_stoi (str : string) : outcome Z :=
  let '(neg, s) := take_sign (skip_space str) in
  let '(v, n, _) := take_digits s 0 0 in
  if n =? 0 then Thrown (invalid_argument "stoi")
  else
    let v := if neg then - v else v in
    if (v <? INT_MIN) || (INT_MAX <? v) then Thrown (out_of_range "stoi")
    else Normal v.

(** ** double and std::stod

    A [double] is an IEEE 754 binary64 value: [spec_float] at precision
    53 and maximal exponent 1024.  The comparisons are the IEEE ones:
    every comparison with a NaN is false. *)

Definition double : Type := spec_float.

Definition prec : Z := 53.
Definition emax : Z := 1024.

Definition double_of_int (n : Z) : double := binary_normalize prec emax n 0 false.

Definition dlt (a b : double) : bool := SFltb a b.
Definition dle (a b : double) : bool := SFleb a b.
Definition dgt (a b : double) : bool := SFltb b a.
Definition dge (a b : double) : bool := SFleb b a.

Definition is_nan (a : double) : bool :=
  match a with S754_nan => true | _ => false end.

(** The nearest double to [num / den * 2 ^ e2], for [den > 0]
    (round to nearest, ties to even). *)
Definition round_fraction (neg : bool) (num den e2 : Z) : double :=
  match num with
  | Z0 => S754_zero neg
  | _ =>
      let '(q, e, l) := SFdiv_core_binary prec emax num e2 den 0 in
      binary_round_aux prec emax neg q e l
  end.

(** [d] is exactly [num / den * 2 ^ e2] in magnitude. *)
Definition exactly (d : double) (num den e2 : Z) : bool :=
  match d with
  | S754_finite _ m e =>
      let lo := Z.min e e2 in
      Z.pos m * den * 2 ^ (e - lo) =? num * 2 ^ (e2 - lo)
  | S754_zero _ => num =? 0
  | _ => false
  end.

(** Below the smallest normal double, 2 ^ -1022. *)
Definition tiny (d : double) : bool :=
  match d with
  | S754_zero _ => true
  | S754_finite _ m e => Z.pos (digits2_pos m) + e <? -1021
  | _ => false
  end.

(** The [errno = ERANGE] test of [strtod] as glibc does it: overflow,
    or a tiny result that is not exact. *)
Definition finish (neg : bool) (num den e2 : Z) : outcome double :=
  let d := round_fraction neg num den e2 in
  match d with
  | S754_infinity _ => Thrown (out_of_range "stod")
  | _ =>
      if tiny d && negb (exactly d num den e2)
      then Thrown (out_of_range "stod") else Normal d
  end.

(** An exponent part: the marker [e] (letter case ignored), an optional
    sign and at least one digit.  Absent or incomplete, the exponent is
    0 and nothing is consumed. *)
Definition take_exponent (marker : ascii) (s : string) : Z :=
  match s with
  | String c r =>
      if Ascii.eqb (tolower c) marker then
        let '(neg, r') := take_sign r in
        let '(v, n, _) := take_digits r' 0 0 in
        if n =? 0 then 0 else if neg then - v else v
      else 0
  | EmptyString => 0
  end.

(** A hexadecimal mantissa [hhh.hhh] with at least one digit and its
    binary exponent [p...]. *)
Definition hex_float (neg : bool) (s : string) : option (outcome double) :=
  let '(m1, n1, r1) := take_xdigits s 0 0 in
  let '(m, n2, r2) :=
    match r1 with
    | String "." r => take_xdigits r m1 0
    | _ => (m1, 0, r1)
    end in
  if n1 + n2 =? 0 then None
  else Some (finish neg m 1 (take_exponent "p" r2 - 4 * n2)).

Definition dec_float (neg : bool) (s : string) : option (outcome double) :=
  let '(m1, n1, r1) := take_digits s 0 0 in
  let '(m, n2, r2) :=
    match r1 with
    | String "." r => take_digits r m1 0
    | _ => (m1, 0, r1)
    end in
  if n1 + n2 =? 0 then None
  else
    let e := take_exponent "e" r2 - n2 in
    Some (if 0 <=? e then finish neg (m * 10 ^ e) 1 0
          else finish neg m (10 ^ (- e)) 0).

(** [strtod] on the string: leading white space, an optional sign, then
    [inf]/[infinity], [nan], a hexadecimal or a decimal floating
    constant; trailing characters are ignored.  No conversion is
    [std::invalid_argument], [ERANGE] is [std::out_of_range]. *)
Definition std_stod (str : string) : outcome double :=
  let '(neg, s) := take_sign (skip_space str) in
  match strip_prefix_ci "inf" s with
  | Some _ => Normal (S754_infinity neg)
  | None =>
  match strip_prefix_ci "nan" s with
  | Some _ => Normal S754_nan
  | None =>
      let hex :=
        match strip_prefix_ci "0x" s with
        | Some r => hex_float neg r
        | None => None
        end in
      match hex with
      | Some r => r
      | None =>
          match dec_float neg s with
          | Some r => r
          | None => Thrown (invalid_argument "stod")
          end
      end
  end
  end.

(** ** splitString (utility.h) *)

(** Modelled from the spec: the elements of a delimited list, for
    [splitString] below.  A separator ends an element, and the text
    after the last separator is an element unless it is empty, the way
    [std::getline] reads a stream.  [cur] is the element being read. *)
Fixpoint getline_tokens (input : string) (split_char : ascii) (cur : string)
  : list string :=
  match input with
  | EmptyString => if String.eqb cur "" then [] else [cur]
  | String c r =>
      if Ascii.eqb c split_char then cur :: getline_tokens r split_char ""
      else getline_tokens r split_char (cur ++ String c "")
  end.

(** Modelled from the spec: [splitString] is declared in utility.h,
    which is not part of the sources at hand.  The spec calls its input
    a comma-delimited list; the call sites pass the vector to fill first,
    and the elements are added at its end. *)
Definition splitString (result : list string) (input : string)
  (split_char : ascii) : list string :=
  (result ++ getline_tokens input split_char "")%list.

(** ** getopt_long

    The GNU [getopt_long] in its default (permuting) mode, with
    [POSIXLY_CORRECT] unset and every [flag] member null, as in the
    table of [processArguments].  The diagnostics it writes to the
    standard error are left out. *)
Module Getopt.

Inductive has_arg_t : Type :=
| no_argument
| required_argument
| optional_argument.

Definition has_arg_eqb (a b : has_arg_t) : bool :=
  match a, b with
  | no_argument, no_argument
  | required_argument, required_argument
  | optional_argument, optional_argument => true
  | _, _ => false
  end.

(** [struct option]; [flag] is null throughout and left out. *)
Record option_ : Type := mkopt {
  name : string;
  has_arg : has_arg_t;
  val : ascii
}.

(** One value returned by [getopt_long], with [optarg] as it is then
    ([None] for a null pointer). *)
Definition result : Type := (ascii * option string)%type.

(** What [optstring] says about the option character [c]: [strchr],
    then the colons that follow. *)
Fixpoint lookup_short (optstring : string) (c : ascii) : option has_arg_t :=
  match optstring with
  | EmptyString => None
  | String x r =>
      if Ascii.eqb x c then
        Some match r with
             | String ":" (String ":" _) => optional_argument
             | String ":" _ => required_argument
             | _ => no_argument
             end
      else lookup_short r c
  end.

Definition short_spec (optstring : string) (c : ascii) : option has_arg_t :=
  if Ascii.eqb c ":" || Ascii.eqb c ";" then None
  else lookup_short optstring c.

(** The option characters of one argv element [-abc], left to right.
    The second component is the character of a last option that
    requires an argument and has none attached: it takes the next
    argv element. *)
Fixpoint short_cluster (optstring : string) (chars : string)
  : list result * option ascii :=
  match chars with
  | EmptyString => ([], None)
  | String c r =>
      match short_spec optstring c with
      | None =>
          let '(rs, p) := short_cluster optstring r in
          (("?"%char, None) :: rs, p)
      | Some no_argument =>
          let '(rs, p) := short_cluster optstring r in
          ((c, None) :: rs, p)
      | Some optional_argument =>
          ([(c, if String.eqb r "" then None else Some r)], None)
      | Some required_argument =>
          if String.eqb r "" then ([], Some c) else ([(c, Some r)], None)
      end
  end.

(** The text of [--name=value] after the dashes: the name and the
    value, if there is an equals sign. *)
Fixpoint split_eq (s : string) : string * option string :=
  match s with
  | EmptyString => ("", None)
  | String c r =>
      if Ascii.eqb c "=" then ("", Some r)
      else let '(n, v) := split_eq r in (String c n, v)
  end.

Inductive long_match : Type :=
| Found (o : option_)
| Ambiguous
| NoMatch.

(** An exact match wins; otherwise the name may abbreviate exactly one
    option (several, if they agree on [has_arg] and [val]). *)
Definition find_long (longopts : list option_) (nm : string) : long_match :=
  match filter (fun o => String.eqb (name o) nm) longopts with
  | o :: _ => Found o
  | [] =>
      match filter (fun o => prefix nm (name o)) longopts with
      | [] => NoMatch
      | o :: others =>
          if forallb (fun p => has_arg_eqb (has_arg p) (has_arg o)
                               && Ascii.eqb (val p) (val o)) others
          then Found o else Ambiguous
      end
  end.

(** One argv element [--text]: the result it gives, or the character
    of an option that takes the next argv element as its argument. *)
Definition long_option (longopts : list option_) (text : string)
  : list result * option ascii :=
  let '(nm, value) := split_eq text in
  match find_long longopts nm with
  | Found o =>
      match value, has_arg o with
      | Some _, no_argument => ([("?"%char, None)], None)
      | Some v, _ => ([(val o, Some v)], None)
      | None, required_argument => ([], Some (val o))
      | None, _ => ([(val o, None)], None)
      end
  | Ambiguous | NoMatch => ([("?"%char, None)], None)
  end.

(** An argv element that is not an option: it does not start with a
    dash, or it is the single dash. *)
Definition nonoption (a : string) : bool :=
  match a with
  | String "-" (String _ _) => false
  | _ => true
  end.

Definition element (optstring : string) (longopts : list option_)
  (a : string) : list result * option ascii :=
  match a with
  | String "-" (String "-" text) => long_option longopts text
  | String "-" chars => short_cluster optstring chars
  | _ => ([], None)
  end.

(** The values the successive calls return on the elements [args]
    (argv from index 1 on) until the call that returns -1, and the
    elements from the final [optind] on: the non-options in their
    order, then everything after a [--]. *)
Fixpoint scan (optstring : string) (longopts : list option_)
  (args : list string) : list result * list string :=
  match args with
  | [] => ([], [])
  | a :: rest =>
      if String.eqb a "--" then ([], rest)
      else if nonoption a then
        let '(rs, others) := scan optstring longopts rest in
        (rs, a :: others)
      else
        match element optstring longopts a with
        | (here, None) =>
            let '(rs, others) := scan optstring longopts rest in
            ((here ++ rs)%list, others)
        | (here, Some c) =>
            match rest with
            | [] => ((here ++ [("?"%char, None)])%list, [])
            | x :: rest' =>
                let '(rs, others) := scan optstring longopts rest' in
                ((here ++ (c, Some x) :: rs)%list, others)
            end
        end
  end.

Definition getopt_long (argv : list string) (optstring : string)
  (longopts : list option_) : list result * list string :=
  scan optstring longopts (tl argv).

End Getopt.

(** ** The configuration object *)

(** Modelled from the spec: [TreeType] is an enum of globals.h, which
    is not part of the sources at hand; the spec names its variants
    Quantile and Instrumental, the two [processArguments] can select. *)
Inductive TreeType : Type :=
| TREE_QUANTILE
| TREE_INSTRUMENTAL.

(** Modelled from the spec: [DEFAULT_NUM_TREE] is a constant of
    globals.h, which is not part of the sources at hand; the spec gives
    500 as the default number of trees. *)
Definition DEFAULT_NUM_TREE : Z := 500.

Record ArgumentHandler : Type := mkArgumentHandler {
  argv : list string;
  alwayssplitvars : list string;
  caseweights : string;
  depvarname : string;
  fraction : double;
  savemem : bool;
  predict : string;
  splitweights : string;
  nthreads : Z;
  file : string;
  targetpartitionsize : Z;
  mtry : Z;
  quantiles : list double;
  statusvarname : string;
  instrumentvarname : string;
  ntree : Z;
  replace : bool;
  verbose : bool;
  write : bool;
  treetype : TreeType;
  seed : Z
}.

(** Assignment to one member, the others unchanged. *)
Definition set_alwayssplitvars (v : list string) (a : ArgumentHandler) : ArgumentHandler :=
  mkArgumentHandler (argv a) v (caseweights a) (depvarname a) (fraction a)
    (savemem a) (predict a) (splitweights a) (nthreads a) (file a)
    (targetpartitionsize a) (mtry a) (quantiles a) (statusvarname a)
    (instrumentvarname a) (ntree a) (replace a) (verbose a) (write a)
    (treetype a) (seed a).

Definition set_caseweights (v : string) (a : ArgumentHandler) : ArgumentHandler :=
  mkArgumentHandler (argv a) (alwayssplitvars a) v (depvarname a)
    (fraction a) (savemem a) (predict a) (splitweights a) (nthreads a)
    (file a) (targetpartitionsize a) (mtry a) (quantiles a)
    (statusvarname a) (instrumentvarname a) (ntree a) (replace a)
    (verbose a) (write a) (treetype a) (seed a).

Definition set_depvarname (v : string) (a : ArgumentHandler) : ArgumentHandler :=
  mkArgumentHandler (argv a) (alwayssplitvars a) (caseweights a) v
    (fraction a) (savemem a) (predict a) (splitweights a) (nthreads a)
    (file a) (targetpartitionsize a) (mtry a) (quantiles a)
    (statusvarname a) (instrumentvarname a) (ntree a) (replace a)
    (verbose a) (write a) (treetype a) (seed a).

Definition set_fraction (v : double) (a : ArgumentHandler) : ArgumentHandler :=
  mkArgumentHandler (argv a) (alwayssplitvars a) (caseweights a)
    (depvarname a) v (savemem a) (predict a) (splitweights a) (nthreads a)
    (file a) (targetpartitionsize a) (mtry a) (quantiles a)
    (statusvarname a) (instrumentvarname a) (ntree a) (replace a)
    (verbose a) (write a) (treetype a) (seed a).

Definition set_savemem (v : bool) (a : ArgumentHandler) : ArgumentHandler :=
  mkArgumentHandler (argv a) (alwayssplitvars a) (caseweights a)
    (depvarname a) (fraction a) v (predict a) (splitweights a) (nthreads a)
    (file a) (targetpartitionsize a) (mtry a) (quantiles a)
    (statusvarname a) (instrumentvarname a) (ntree a) (replace a)
    (verbose a) (write a) (treetype a) (seed a).

Definition set_predict (v : string) (a : ArgumentHandler) : ArgumentHandler :=
  mkArgumentHandler (argv a) (alwayssplitvars a) (caseweights a)
    (depvarname a) (fraction a) (savemem a) v (splitweights a) (nthreads a)
    (file a) (targetpartitionsize a) (mtry a) (quantiles a)
    (statusvarname a) (instrumentvarname a) (ntree a) (replace a)
    (verbose a) (write a) (treetype a) (seed a).

Definition set_splitweights (v : string) (a : ArgumentHandler) : ArgumentHandler :=
  mkArgumentHandler (argv a) (alwayssplitvars a) (caseweights a)
    (depvarname a) (fraction a) (savemem a) (predict a) v (nthreads a)
    (file a) (targetpartitionsize a) (mtry a) (quantiles a)
    (statusvarname a) (instrumentvarname a) (ntree a) (replace a)
    (verbose a) (write a) (treetype a) (seed a).

Definition set_nthreads (v : Z) (a : ArgumentHandler) : ArgumentHandler :=
  mkArgumentHandler (argv a) (alwayssplitvars a) (caseweights a)
    (depvarname a) (fraction a) (savemem a) (predict a) (splitweights a) v
    (file a) (targetpartitionsize a) (mtry a) (quantiles a)
    (statusvarname a) (instrumentvarname a) (ntree a) (replace a)
    (verbose a) (write a) (treetype a) (seed a).

Definition set_file (v : string) (a : ArgumentHandler) : ArgumentHandler :=
  mkArgumentHandler (argv a) (alwayssplitvars a) (caseweights a)
    (depvarname a) (fraction a) (savemem a) (predict a) (splitweights a)
    (nthreads a) v (targetpartitionsize a) (mtry a) (quantiles a)
    (statusvarname a) (instrumentvarname a) (ntree a) (replace a)
    (verbose a) (write a) (treetype a) (seed a).

Definition set_targetpartitionsize (v : Z) (a : ArgumentHandler) : ArgumentHandler :=
  mkArgumentHandler (argv a) (alwayssplitvars a) (caseweights a)
    (depvarname a) (fraction a) (savemem a) (predict a) (splitweights a)
    (nthreads a) (file a) v (mtry a) (quantiles a) (statusvarname a)
    (instrumentvarname a) (ntree a) (replace a) (verbose a) (write a)
    (treetype a) (seed a).

Definition set_mtry (v : Z) (a : ArgumentHandler) : ArgumentHandler :=
  mkArgumentHandler (argv a) (alwayssplitvars a) (caseweights a)
    (depvarname a) (fraction a) (savemem a) (predict a) (splitweights a)
    (nthreads a) (file a) (targetpartitionsize a) v (quantiles a)
    (statusvarname a) (instrumentvarname a) (ntree a) (replace a)
    (verbose a) (write a) (treetype a) (seed a).

Definition set_quantiles (v : list double) (a : ArgumentHandler) : ArgumentHandler :=
  mkArgumentHandler (argv a) (alwayssplitvars a) (caseweights a)
    (depvarname a) (fraction a) (savemem a) (predict a) (splitweights a)
    (nthreads a) (file a) (targetpartitionsize a) (mtry a) v
    (statusvarname a) (instrumentvarname a) (ntree a) (replace a)
    (verbose a) (write a) (treetype a) (seed a).

Definition set_statusvarname (v : string) (a : ArgumentHandler) : ArgumentHandler :=
  mkArgumentHandler (argv a) (alwayssplitvars a) (caseweights a)
    (depvarname a) (fraction a) (savemem a) (predict a) (splitweights a)
    (nthreads a) (file a) (targetpartitionsize a) (mtry a) (quantiles a) v
    (instrumentvarname a) (ntree a) (replace a) (verbose a) (write a)
    (treetype a) (seed a).

Definition set_instrumentvarname (v : string) (a : ArgumentHandler) : ArgumentHandler :=
  mkArgumentHandler (argv a) (alwayssplitvars a) (caseweights a)
    (depvarname a) (fraction a) (savemem a) (predict a) (splitweights a)
    (nthreads a) (file a) (targetpartitionsize a) (mtry a) (quantiles a)
    (statusvarname a) v (ntree a) (replace a) (verbose a) (write a)
    (treetype a) (seed a).

Definition set_ntree (v : Z) (a : ArgumentHandler) : ArgumentHandler :=
  mkArgumentHandler (argv a) (alwayssplitvars a) (caseweights a)
    (depvarname a) (fraction a) (savemem a) (predict a) (splitweights a)
    (nthreads a) (file a) (targetpartitionsize a) (mtry a) (quantiles a)
    (statusvarname a) (instrumentvarname a) v (replace a) (verbose a)
    (write a) (treetype a) (seed a).

Definition set_replace (v : bool) (a : ArgumentHandler) : ArgumentHandler :=
  mkArgumentHandler (argv a) (alwayssplitvars a) (caseweights a)
    (depvarname a) (fraction a) (savemem a) (predict a) (splitweights a)
    (nthreads a) (file a) (targetpartitionsize a) (mtry a) (quantiles a)
    (statusvarname a) (instrumentvarname a) (ntree a) v (verbose a)
    (write a) (treetype a) (seed a).

Definition set_verbose (v : bool) (a : ArgumentHandler) : ArgumentHandler :=
  mkArgumentHandler (argv a) (alwayssplitvars a) (caseweights a)
    (depvarname a) (fraction a) (savemem a) (predict a) (splitweights a)
    (nthreads a) (file a) (targetpartitionsize a) (mtry a) (quantiles a)
    (statusvarname a) (instrumentvarname a) (ntree a) (replace a) v
    (write a) (treetype a) (seed a).

Definition set_write (v : bool) (a : ArgumentHandler) : ArgumentHandler :=
  mkArgumentHandler (argv a) (alwayssplitvars a) (caseweights a)
    (depvarname a) (fraction a) (savemem a) (predict a) (splitweights a)
    (nthreads a) (file a) (targetpartitionsize a) (mtry a) (quantiles a)
    (statusvarname a) (instrumentvarname a) (ntree a) (replace a)
    (verbose a) v (treetype a) (seed a).

Definition set_treetype (v : TreeType) (a : ArgumentHandler) : ArgumentHandler :=
  mkArgumentHandler (argv a) (alwayssplitvars a) (caseweights a)
    (depvarname a) (fraction a) (savemem a) (predict a) (splitweights a)
    (nthreads a) (file a) (targetpartitionsize a) (mtry a) (quantiles a)
    (statusvarname a) (instrumentvarname a) (ntree a) (replace a)
    (verbose a) (write a) v (seed a).

Definition set_seed (v : Z) (a : ArgumentHandler) : ArgumentHandler :=
  mkArgumentHandler (argv a) (alwayssplitvars a) (caseweights a)
    (depvarname a) (fraction a) (savemem a) (predict a) (splitweights a)
    (nthreads a) (file a) (targetpartitionsize a) (mtry a) (quantiles a)
    (statusvarname a) (instrumentvarname a) (ntree a) (replace a)
    (verbose a) (write a) (treetype a) v.

(** ** Member functions: state and exceptions *)

(** What the program writes to [std::cout]: the help text (which shows
    [argv[0]]), the version text, and one line per parameter that was
    not processed. *)
Inductive output : Type :=
| HelpText (argv0 : string)
| VersionText
| OtherParameter (param : string).

(** The object a member function runs on, and the standard output. *)
Record process : Type := mkprocess {
  this : ArgumentHandler;
  cout : list output
}.

(** A member function: it runs on a process, ends with an [outcome] and
    leaves the process as it is at that point; an exception does not
    undo the assignments made before it was thrown. *)
Definition M (A : Type) : Type := process -> outcome A * process.

Definition ret {A} (a : A) : M A := fun p => (Normal a, p).

Definition bind {A B} (m : M A) (k : A -> M B) : M B :=
  fun p =>
    match m p with
    | (Normal a, p') => k a p'
    | (Thrown e, p') => (Thrown e, p')
    | (Undefined, p') => (Undefined, p')
    end.

Notation "x <- m ;; k" := (bind m (fun x => k))
  (at level 61, m at next level, right associativity).
Notation "m ;; k" := (bind m (fun _ => k))
  (at level 61, right associativity).

Definition throw {A} (e : exn) : M A := fun p => (Thrown e, p).

(** [try { body } catch (...) { handler }]. *)
Definition try_catch {A} (body handler : M A) : M A :=
  fun p =>
    match body p with
    | (Thrown _, p') => handler p'
    | r => r
    end.

Notation "'try' b 'catch_all' h" := (try_catch b h)
  (at level 60, b at level 61, h at level 61).

(** A library call, which does not touch the process. *)
Definition call {A} (r : outcome A) : M A := fun p => (r, p).

Definition member {A} (f : ArgumentHandler -> A) : M A :=
  fun p => (Normal (f (this p)), p).

Definition assign (f : ArgumentHandler -> ArgumentHandler) : M unit :=
  fun p => (Normal tt, mkprocess (f (this p)) (cout p)).

Definition print (o : output) : M unit :=
  fun p => (Normal tt, mkprocess (this p) (cout p ++ [o])).

(** A [std::string] from a [char*]: undefined for the null pointer,
    which [optarg] is for an option that came without an argument. *)
Definition std_string (s : option string) : M string :=
  match s with
  | Some s => ret s
  | None => call Undefined
  end.

Definition when (b : bool) (m : M unit) : M unit :=
  if b then m else ret tt.

Fixpoint for_each {A} (l : list A) (body : A -> M unit) : M unit :=
  match l with
  | [] => ret tt
  | x :: l' => body x ;; for_each l' body
  end.

Definition empty {A} (v : list A) : bool :=
  match v with [] => true | _ => false end.

Definition string_empty (s : string) : bool := String.eqb s "".

(** ** ArgumentHandler::ArgumentHandler *)

(** [DEFAULT_NUM_THREADS] is a constant of globals.h and is taken as a
    parameter. *)
Definition new_ArgumentHandler (DEFAULT_NUM_THREADS : Z) (argv : list string)
  : ArgumentHandler :=
  {| argv := argv;
     alwayssplitvars := [];
     caseweights := ""; depvarname := ""; fraction := double_of_int 1;
     savemem := false; predict := "";
     splitweights := ""; nthreads := DEFAULT_NUM_THREADS; file := "";
     targetpartitionsize := 0; mtry := 0;
     quantiles := []; statusvarname := ""; instrumentvarname := "";
     ntree := DEFAULT_NUM_TREE; replace := true; verbose := false;
     write := false; treetype := TREE_QUANTILE; seed := 0 |}.

Definition displayHelp : M unit :=
  a <- member argv ;; print (HelpText (hd "" a)).

Definition displayVersion : M unit := print VersionText.

(** ** ArgumentHandler::processArguments *)

Definition short_options : string :=
  "A:C:D:F:HM:NP:S:U:XZa:b:c:f:hil::m:o:pr:s:t:uvwy:z:".

Import Getopt.

Definition long_options : list option_ := [
  mkopt "alwayssplitvars"     required_argument "A";
  mkopt "caseweights"         required_argument "C";
  mkopt "depvarname"          required_argument "D";
  mkopt "fraction"            required_argument "F";
  mkopt "savemem"             no_argument       "N";
  mkopt "predict"             required_argument "P";
  mkopt "splitweights"        required_argument "S";
  mkopt "nthreads"            required_argument "U";
  mkopt "predall"             no_argument       "X";
  mkopt "version"             no_argument       "Z";

  mkopt "file"                required_argument "f";
  mkopt "help"                no_argument       "h";
  mkopt "targetpartitionsize" required_argument "l";
  mkopt "mtry"                required_argument "m";
  mkopt "quantiles"           required_argument "q";
  mkopt "splitrule"           required_argument "r";
  mkopt "statusvarname"       required_argument "s";
  mkopt "instrumentvarname"   required_argument "i";
  mkopt "ntree"               required_argument "t";
  mkopt "noreplace"           no_argument       "u";
  mkopt "verbose"             no_argument       "v";
  mkopt "write"               no_argument       "w";
  mkopt "treetype"            required_argument "y";
  mkopt "seed"                required_argument "z"
].

(** The body of the loop after [getopt_long] has returned [c]: the
    [switch].  [None] is a [break] out of the switch, so the loop goes
    on; [Some r] is [return r] from [processArguments]. *)
Definition break : M (option Z) := ret None.

Definition switch (c : ascii) (optarg : option string) : M (option Z) :=
  match c with
  | "A"%char =>
      arg <- std_string optarg ;;
      v <- member alwayssplitvars ;;
      assign (set_alwayssplitvars (splitString v arg ",")) ;;
      break
  | "C"%char =>
      arg <- std_string optarg ;; assign (set_caseweights arg) ;; break
  | "D"%char =>
      arg <- std_string optarg ;; assign (set_depvarname arg) ;; break
  | "F"%char =>
      (try (arg <- std_string optarg ;;
            d <- call (std_stod arg) ;;
            assign (set_fraction d) ;;
            f <- member fraction ;;
            when (dgt f (double_of_int 1) || dle f (double_of_int 0))
              (throw (runtime_error "")))
       catch_all
         throw (runtime_error
           "Illegal argument for option 'fraction'. Please give a value in (0,1]. See '--help' for details.")) ;;
      break
  | "N"%char => assign (set_savemem true) ;; break
  | "P"%char =>
      arg <- std_string optarg ;; assign (set_predict arg) ;; break
  | "S"%char =>
      arg <- std_string optarg ;; assign (set_splitweights arg) ;; break
  | "U"%char =>
      (try (arg <- std_string optarg ;;
            temp <- call (std_stoi arg) ;;
            if temp <? 1 then throw (runtime_error "")
            else assign (set_nthreads temp))
       catch_all
         throw (runtime_error
           "Illegal argument for option 'nthreads'. Please give a positive integer. See '--help' for details.")) ;;
      break
  | "Z"%char => displayVersion ;; ret (Some (-1))
  | "f"%char =>
      arg <- std_string optarg ;; assign (set_file arg) ;; break
  | "h"%char => displayHelp ;; ret (Some (-1))
  | "l"%char =>
      (try (arg <- std_string optarg ;;
            temp <- call (std_stoi arg) ;;
            if temp <? 1 then throw (runtime_error "")
            else assign (set_targetpartitionsize temp))
       catch_all
         throw (runtime_error
           "Illegal argument for option 'targetpartitionsize'. Please give a positive integer. See '--help' for details.")) ;;
      break
  | "m"%char =>
      (try (arg <- std_string optarg ;;
            temp <- call (std_stoi arg) ;;
            if temp <? 1 then throw (runtime_error "")
            else assign (set_mtry temp))
       catch_all
         throw (runtime_error
           "Illegal argument for option 'mtry'. Please give a positive integer. See '--help' for details.")) ;;
      break
  | "q"%char =>
      arg <- std_string optarg ;;
      let split_args := splitString [] arg "," in
      for_each split_args (fun arg =>
        quantile <- call (std_stod arg) ;;
        when (dge quantile (double_of_int 1) || dle quantile (double_of_int 0))
          (throw (runtime_error "All quantiles must lie in the range (0, 1).")) ;;
        qs <- member quantiles ;;
        assign (set_quantiles (qs ++ [quantile]))) ;;
      break
  | "s"%char =>
      arg <- std_string optarg ;; assign (set_statusvarname arg) ;; break
  | "i"%char =>
      arg <- std_string optarg ;; assign (set_instrumentvarname arg) ;; break
  | "t"%char =>
      (try (arg <- std_string optarg ;;
            temp <- call (std_stoi arg) ;;
            if temp <? 1 then throw (runtime_error "")
            else assign (set_ntree temp))
       catch_all
         throw (runtime_error
           "Illegal argument for option 'ntree'. Please give a positive integer. See '--help' for details.")) ;;
      break
  | "u"%char => assign (set_replace false) ;; break
  | "v"%char => assign (set_verbose true) ;; break
  | "w"%char => assign (set_write true) ;; break
  | "y"%char =>
      (try (arg <- std_string optarg ;;
            n <- call (std_stoi arg) ;;
            if n =? 11 then assign (set_treetype TREE_QUANTILE)
            else if n =? 15 then assign (set_treetype TREE_INSTRUMENTAL)
            else throw (runtime_error ""))
       catch_all
         throw (runtime_error
           "Illegal argument for option 'treetype'. Please give a positive integer. See '--help' for details.")) ;;
      break
  | "z"%char =>
      (try (arg <- std_string optarg ;;
            temp <- call (std_stoi arg) ;;
            if temp <? 0 then throw (runtime_error "")
            else assign (set_seed temp))
       catch_all
         throw (runtime_error
           "Illegal argument for option 'seed'. Please give a positive integer. See '--help' for details.")) ;;
      break
  | _ => break
  end.

(** [while (1)] over the values [getopt_long] returns, until it returns
    -1 ([None]: the loop was left by its [break]) or the switch returns
    from the function. *)
Fixpoint while_getopt (results : list result) : M (option Z) :=
  match results with
  | [] => ret None
  | (c, optarg) :: rest =>
      r <- switch c optarg ;;
      match r with
      | Some v => ret (Some v)
      | None => while_getopt rest
      end
  end.

Definition processArguments : M Z :=
  a <- member argv ;;
  let '(results, others) := getopt_long a short_options long_options in
  r <- while_getopt results ;;
  match r with
  | Some v => ret v
  | None =>
      for_each others (fun param => print (OtherParameter param)) ;;
      ret 0
  end.

(** ** ArgumentHandler::checkArguments *)

Definition checkArguments : M unit :=
  a <- member (fun a => a) ;;
  when (string_empty (file a))
    (throw (runtime_error
       "Please specify an input filename with '--file'. See '--help' for details.")) ;;
  when (string_empty (predict a) && string_empty (depvarname a))
    (throw (runtime_error
       "Please specify a dependent variable name with '--depvarname'. See '--help' for details.")) ;;
  when (match treetype a with TREE_INSTRUMENTAL => true | _ => false end
        && string_empty (instrumentvarname a))
    (throw (runtime_error
       "When using instrumental trees, the instrument variable must be specified through--instrumentvarname. See '--help' for details.")) ;;
  when (match treetype a with TREE_INSTRUMENTAL => true | _ => false end
        && string_empty (statusvarname a))
    (throw (runtime_error
       "When using instrumental trees, the treatment variable must be specified through--statusvarname. See '--help' for details.")) ;;
  when (match treetype a with TREE_INSTRUMENTAL => true | _ => false end
        && string_empty (instrumentvarname a))
    (throw (runtime_error
       "Option '--instrumentvarname' only applicable for instrumental forests. See '--help' for details.")) ;;
  when (negb (empty (alwayssplitvars a)) && negb (string_empty (splitweights a)))
    (throw (runtime_error
       "Please use only one option of splitweights and alwayssplitvars.")).

(** * Vocabulary of the statements *)

Local Open Scope list_scope.

(** Unfold the monad on a goal.  The library models stay folded. *)
Ltac run :=
  cbv beta iota zeta delta
    [switch while_getopt bind ret throw try_catch call member assign print
     std_string when break displayHelp displayVersion fst snd this cout].

(** The process with its object replaced. *)
Definition with_this (a : ArgumentHandler) (p : process) : process :=
  mkprocess a (cout p).

(** The scan of [p] comes to the option [c] with argument [optarg] in
    the process [p1]: [getopt_long] returns it after the values [pre],
    which the switch has handled without leaving the loop. *)
Definition reaches (p : process) (c : ascii) (optarg : option string)
  (p1 : process) : Prop :=
  exists pre post others,
    getopt_long (argv (this p)) short_options long_options
      = (pre ++ (c, optarg) :: post, others)
    /\ while_getopt pre p = (Normal None, p1).

(** When the switch leaves the loop at the option reached, by an
    exception, a [return] or undefined behaviour, this is how
    [processArguments] ends. *)
Definition leaves (r : outcome (option Z)) : option (outcome Z) :=
  match r with
  | Normal (Some v) => Some (Normal v)
  | Normal None => None
  | Thrown e => Some (Thrown e)
  | Undefined => Some Undefined
  end.

(** [treetype == TREE_INSTRUMENTAL]. *)
Definition is_instrumental (a : ArgumentHandler) : bool :=
  match treetype a with TREE_INSTRUMENTAL => true | _ => false end.

(** The rules of the validator as the specification lists them, in its
    order. *)
Inductive rule : Type :=
| input_file_present
| predict_or_depvarname_present
| instrument_present
| status_present
| weights_exclusive.

(** The checking order. *)
Definition rules : list rule :=
  [input_file_present; predict_or_depvarname_present; instrument_present;
   status_present; weights_exclusive].

(** The configuration [a] breaks the rule [r]. *)
Definition violated (a : ArgumentHandler) (r : rule) : bool :=
  match r with
  | input_file_present => string_empty (file a)
  | predict_or_depvarname_present =>
      string_empty (predict a) && string_empty (depvarname a)
  | instrument_present =>
      is_instrumental a && string_empty (instrumentvarname a)
  | status_present =>
      is_instrumental a && string_empty (statusvarname a)
  | weights_exclusive =>
      negb (string_empty (splitweights a)) && negb (empty (alwayssplitvars a))
  end.

(** The error [checkArguments] raises for the rule. *)
Definition rule_error (r : rule) : exn :=
  runtime_error
    match r with
    | input_file_present =>
        "Please specify an input filename with '--file'. See '--help' for details."
    | predict_or_depvarname_present =>
        "Please specify a dependent variable name with '--depvarname'. See '--help' for details."
    | instrument_present =>
        "When using instrumental trees, the instrument variable must be specified through--instrumentvarname. See '--help' for details."
    | status_present =>
        "When using instrumental trees, the treatment variable must be specified through--statusvarname. See '--help' for details."
    | weights_exclusive =>
        "Please use only one option of splitweights and alwayssplitvars."
    end.

(** The validator of the specification: the first violated rule. *)
Definition first_violated_rule (a : ArgumentHandler) : outcome unit :=
  match find (violated a) rules with
  | Some r => Thrown (rule_error r)
  | None => Normal tt
  end.

(** The message of the fifth [if] of [checkArguments]. *)
Definition only_applicable_message : string :=
  "Option '--instrumentvarname' only applicable for instrumental forests. See '--help' for details.".

(** Unfold [checkArguments] and the validator of the specification. *)
Ltac run_check :=
  cbv beta iota zeta delta
    [checkArguments bind ret throw member when fst snd first_violated_rule
     find rules violated rule_error is_instrumental].

(** The text of the malformed-option error for the option [name]. *)
Definition illegal_argument (name format : string) : exn :=
  runtime_error
    ("Illegal argument for option '" ++ name ++ "'. Please give " ++ format
     ++ ". See '--help' for details.")%string.

(** The integer options: the value [getopt_long] returns for them, their
    external name, their least value, and the member they set. *)
Record integer_option : Type := mkint {
  int_val : ascii;
  int_name : string;
  int_min : Z;
  int_set : Z -> ArgumentHandler -> ArgumentHandler;
  int_get : ArgumentHandler -> Z
}.

(** [ntree], [mtry], [targetpartitionsize] and [nthreads] are positive;
    [seed] may be 0. *)
Definition integer_options : list integer_option := [
  mkint "t" "ntree" 1 set_ntree ntree;
  mkint "m" "mtry" 1 set_mtry mtry;
  mkint "l" "targetpartitionsize" 1 set_targetpartitionsize
    targetpartitionsize;
  mkint "U" "nthreads" 1 set_nthreads nthreads;
  mkint "z" "seed" 0 set_seed seed
].

(** The malformed-option errors of [fraction] and [treetype], and the
    error of a quantile out of range. *)
Definition fraction_error : exn :=
  illegal_argument "fraction" "a value in (0,1]".

Definition treetype_error : exn :=
  illegal_argument "treetype" "a positive integer".

Definition quantiles_error : exn :=
  runtime_error "All quantiles must lie in the range (0, 1).".

(** The body of the loop over [split_args]. *)
Definition push_quantile (arg : string) : M unit :=
  quantile <- call (std_stod arg) ;;
  when (dge quantile (double_of_int 1) || dle quantile (double_of_int 0))
    (throw quantiles_error) ;;
  qs <- member quantiles ;;
  assign (set_quantiles (qs ++ [quantile])).

(** The process after the values [qs] were pushed. *)
Definition pushed (qs : list double) (p : process) : process :=
  with_this (set_quantiles (quantiles (this p) ++ qs) (this p)) p.

(** An element the loop accepts for certain: a number strictly between
    0 and 1. *)
Definition proper_quantile (arg : string) (q : double) : Prop :=
  std_stod arg = Normal q
  /\ dlt (double_of_int 0) q && dlt q (double_of_int 1) = true.

(** An element the loop fails on, with the exception [e]: the
    conversion throws [e], or the number is at least 1 or at most 0. *)
Definition improper_quantile (arg : string) (e : exn) : Prop :=
  std_stod arg = Thrown e
  \/ exists q, std_stod arg = Normal q
               /\ dge q (double_of_int 1) || dle q (double_of_int 0) = true
               /\ e = quantiles_error.

(** A result of [getopt_long] other than ['?']. *)
Definition recognized (r : result) : bool := negb (Ascii.eqb (fst r) "?").

(** The characters the switch has a case for. *)
Definition cases : list ascii :=
  ["A"; "C"; "D"; "F"; "N"; "P"; "S"; "U"; "Z"; "f"; "h"; "l"; "m"; "q"; "s";
   "i"; "t"; "u"; "v"; "w"; "y"; "z"]%char.

(** The value of a scalar member. *)
Inductive value : Type :=
| Text (s : string)
| Int (n : Z)
| Real (d : double)
| Tree (t : TreeType).

(** The options with an argument that is stored in a scalar member: the
    value [getopt_long] returns for them and the member. *)
Record scalar_option : Type := mkscalar {
  sc_val : ascii;
  sc_get : ArgumentHandler -> value
}.

(** The flags [savemem], [noreplace], [verbose] and [write] take no
    argument and are not listed. *)
Definition scalar_options : list scalar_option := [
  mkscalar "C" (fun a => Text (caseweights a));
  mkscalar "D" (fun a => Text (depvarname a));
  mkscalar "F" (fun a => Real (fraction a));
  mkscalar "P" (fun a => Text (predict a));
  mkscalar "S" (fun a => Text (splitweights a));
  mkscalar "U" (fun a => Int (nthreads a));
  mkscalar "f" (fun a => Text (file a));
  mkscalar "l" (fun a => Int (targetpartitionsize a));
  mkscalar "m" (fun a => Int (mtry a));
  mkscalar "s" (fun a => Text (statusvarname a));
  mkscalar "i" (fun a => Text (instrumentvarname a));
  mkscalar "t" (fun a => Int (ntree a));
  mkscalar "y" (fun a => Tree (treetype a));
  mkscalar "z" (fun a => Int (seed a))
].

(** Case analysis on every [match] and [if] of a hypothesis that runs a
    member, down to the pairs it can be. *)
Ltac cases_of H :=
  repeat match type of H with
         | context [match ?x with _ => _ end] =>
             lazymatch x with
             | context [match _ with _ => _ end] => fail
             | _ => destruct x
             end
         end.

(** Reduce the members read from an object built by the setters. *)
Ltac members :=
  cbn [sc_val sc_get this cout with_this
       caseweights depvarname fraction predict splitweights nthreads file
       targetpartitionsize mtry statusvarname instrumentvarname ntree
       treetype seed quantiles alwayssplitvars
       set_caseweights set_depvarname set_fraction set_predict
       set_splitweights set_nthreads set_file set_targetpartitionsize
       set_mtry set_statusvarname set_instrumentvarname set_ntree
       set_treetype set_seed set_quantiles set_alwayssplitvars
       set_savemem set_replace set_verbose set_write].

(** The ranges of the two doubles: (0,1] for [fraction], (0,1) for a
    quantile. *)
Definition fraction_valid (d : double) : bool :=
  dlt (double_of_int 0) d && dle d (double_of_int 1).

Definition quantile_valid (q : double) : bool :=
  dlt (double_of_int 0) q && dlt q (double_of_int 1).

(** Against the object [a0] the scan started on, every numeric member
    of [a] holds its value in [a0] or a value that passed its range
    test: within its range, or a NaN for the two doubles. *)
Record validated (a0 a : ArgumentHandler) : Prop := mkvalidated {
  v_fraction :
    fraction a = fraction a0
    \/ fraction_valid (fraction a) = true \/ is_nan (fraction a) = true;
  v_nthreads : nthreads a = nthreads a0 \/ 1 <= nthreads a;
  v_targetpartitionsize :
    targetpartitionsize a = targetpartitionsize a0
    \/ 1 <= targetpartitionsize a;
  v_mtry : mtry a = mtry a0 \/ 1 <= mtry a;
  v_ntree : ntree a = ntree a0 \/ 1 <= ntree a;
  v_seed : seed a = seed a0 \/ 0 <= seed a;
  v_quantiles :
    exists qs, quantiles a = quantiles a0 ++ qs
               /\ Forall (fun q => quantile_valid q = true \/ is_nan q = true)
                    qs
}.

(** As [cases_of], keeping the equation of each case. *)
Ltac cases_eqn H :=
  repeat match type of H with
         | context [match ?x with _ => _ end] =>
             lazymatch x with
             | context [match _ with _ => _ end] => fail
             | _ => destruct x eqn:?
             end
         end.

(** The exceptions a scan can end with. *)
Definition scan_errors : list exn := [
  fraction_error;
  illegal_argument "nthreads" "a positive integer";
  illegal_argument "targetpartitionsize" "a positive integer";
  illegal_argument "mtry" "a positive integer";
  illegal_argument "ntree" "a positive integer";
  treetype_error;
  illegal_argument "seed" "a positive integer";
  quantiles_error;
  invalid_argument "stod";
  out_of_range "stod"
].

(** The option characters whose case reads [optarg]. *)
Definition reads_optarg : list ascii :=
  ["A"; "C"; "D"; "F"; "P"; "S"; "U"; "f"; "l"; "m"; "q"; "s"; "i"; "t"; "y";
   "z"]%char.

(** Membership in a list that is written out. *)
Ltac in_list := repeat (first [left; reflexivity | right]).

(** What an option that lets the loop go on does to the object: the
    assignment of its case, with the value its argument gave. *)
Inductive touches : ascii -> (ArgumentHandler -> ArgumentHandler) -> Prop :=
| touches_A toks :
    touches "A" (fun a => set_alwayssplitvars (alwayssplitvars a ++ toks) a)
| touches_C v : touches "C" (set_caseweights v)
| touches_D v : touches "D" (set_depvarname v)
| touches_F v : touches "F" (set_fraction v)
| touches_N : touches "N" (set_savemem true)
| touches_P v : touches "P" (set_predict v)
| touches_S v : touches "S" (set_splitweights v)
| touches_U v : touches "U" (set_nthreads v)
| touches_f v : touches "f" (set_file v)
| touches_l v : touches "l" (set_targetpartitionsize v)
| touches_m v : touches "m" (set_mtry v)
| touches_q qs :
    touches "q" (fun a => set_quantiles (quantiles a ++ qs) a)
| touches_s v : touches "s" (set_statusvarname v)
| touches_i v : touches "i" (set_instrumentvarname v)
| touches_t v : touches "t" (set_ntree v)
| touches_u : touches "u" (set_replace false)
| touches_v : touches "v" (set_verbose true)
| touches_w : touches "w" (set_write true)
| touches_y v : touches "y" (set_treetype v)
| touches_z v : touches "z" (set_seed v)
| touches_none c :
    existsb (Ascii.eqb c) cases = false -> touches c (fun a => a).

(** Rewrite with the equations [cases_eqn] has left. *)
Ltac rewrite_cases :=
  repeat match goal with
         | E : ?l = _ |- context [?l] => rewrite E
         end.

(** The values [getopt_long] can return with a null [optarg]. *)
Definition null_optarg : list ascii :=
  ["?"; "H"; "N"; "X"; "Z"; "h"; "i"; "l"; "p"; "u"; "v"; "w"]%char.

(** The options without an argument that set a boolean member: the
    value [getopt_long] returns for them and the reading of the member
    that is true once the option was given. *)
Record flag_option : Type := mkflag {
  fl_val : ascii;
  fl_given : ArgumentHandler -> bool
}.

(** [noreplace] turns [replace] off; the other three turn their member
    on. *)
Definition flag_options : list flag_option := [
  mkflag "N" savemem;
  mkflag "u" (fun a => negb (replace a));
  mkflag "v" verbose;
  mkflag "w" write
].

(** The two spellings of an option: [--name] and [-c]. *)
Definition long_spelling (o : option_) : string := ("--" ++ name o)%string.
Definition short_spelling (o : option_) : string :=
  String "-" (String (val o) "").

(** The options whose short form differs from the long one: [-q] is
    not in the option string, [-i] takes no argument there and [-l] an
    optional one. *)
Definition odd_short_forms : list ascii := ["q"; "i"; "l"]%char.

(** An element the quantiles loop pushes: a number strictly between 0
    and 1, or a NaN. *)
Definition pushed_quantile (arg : string) (q : double) : Prop :=
  std_stod arg = Normal q
  /\ (quantile_valid q = true \/ is_nan q = true).

(** The options whose argument is stored as it is: the entry of the
    table and the assignment. *)
Definition text_options
  : list (option_ * (string -> ArgumentHandler -> ArgumentHandler)) := [
  (mkopt "caseweights" required_argument "C", set_caseweights);
  (mkopt "depvarname" required_argument "D", set_depvarname);
  (mkopt "predict" required_argument "P", set_predict);
  (mkopt "splitweights" required_argument "S", set_splitweights);
  (mkopt "file" required_argument "f", set_file);
  (mkopt "statusvarname" required_argument "s", set_statusvarname);
  (mkopt "instrumentvarname" required_argument "i", set_instrumentvarname)
].

(** * Properties *)

(** ** Running the members *)

Lemma with_this_same (p : process) : with_this (this p) p = p.
Proof. destruct p; reflexivity. Qed.

Lemma while_getopt_app (pre rs : list result) (p : process) :
  while_getopt (pre ++ rs) p =
  match while_getopt pre p with
  | (Normal None, p1) => while_getopt rs p1
  | r => r
  end.
Proof.
  revert p; induction pre as [| [c oa] pre IH]; intro p.
  - reflexivity.
  - simpl app. cbn [while_getopt]. unfold bind.
    destruct (switch c oa p) as [[[v |] | e |] p1]; try reflexivity.
    apply IH.
Qed.

Lemma processArguments_leaves p c optarg p1 r p2 out :
  reaches p c optarg p1 ->
  switch c optarg p1 = (r, p2) ->
  leaves r = Some out ->
  processArguments p = (out, p2).
Proof.
  intros (pre & post & others & Hg & Hpre) Hs Hl.
  unfold processArguments, member, bind at 1. cbn [this].
  rewrite Hg. unfold bind at 1.
  rewrite while_getopt_app, Hpre. cbn [while_getopt]. unfold bind at 1.
  rewrite Hs.
  destruct r as [[v |] | e |]; inversion Hl; subst; reflexivity.
Qed.

Lemma processArguments_throws p c optarg p1 e p2 :
  reaches p c optarg p1 ->
  switch c optarg p1 = (Thrown e, p2) ->
  processArguments p = (Thrown e, p2).
Proof. intros H Hs. eapply processArguments_leaves; eauto. Qed.

(** ** checkArguments *)

(** C5: [checkArguments] tests the five rules in the order of the
    specification and fails with the first one violated, leaving the
    process as it was; with tree type Instrumental, an input file and a
    dependent variable but neither instrument nor status variable, the
    error is the one of rule 3. *)
Theorem checkArguments_first_violated_rule :
  (forall p : process, checkArguments p = (first_violated_rule (this p), p))
  /\ (forall p : process,
        treetype (this p) = TREE_INSTRUMENTAL ->
        file (this p) <> "" ->
        depvarname (this p) <> "" ->
        instrumentvarname (this p) = "" ->
        statusvarname (this p) = "" ->
        fst (checkArguments p) = Thrown (rule_error instrument_present)
        /\ fst (checkArguments p) <> Thrown (rule_error status_present)).
Proof.
  assert (H : forall p, checkArguments p = (first_violated_rule (this p), p)).
  { intros [a o]. run_check. cbn [this].
    destruct (string_empty (file a)); [reflexivity |].
    destruct (string_empty (predict a) && string_empty (depvarname a));
      [reflexivity |].
    destruct (treetype a); cbn [andb].
    - destruct (negb (empty (alwayssplitvars a))),
        (negb (string_empty (splitweights a))); reflexivity.
    - destruct (string_empty (instrumentvarname a)); [reflexivity |].
      destruct (string_empty (statusvarname a)); [reflexivity |].
      destruct (negb (empty (alwayssplitvars a))),
        (negb (string_empty (splitweights a))); reflexivity. }
  split; [exact H |].
  intros p Ht Hf Hd Hi Hs. rewrite H. cbn [fst].
  unfold first_violated_rule, rules, find, violated, is_instrumental,
    string_empty.
  rewrite Ht, Hi.
  apply String.eqb_neq in Hf, Hd. rewrite Hf, Hd, andb_false_r.
  cbn. split; [reflexivity | discriminate].
Qed.

Lemma checkArguments_first_violated_rule_witness :
  let p := mkprocess
    (set_treetype TREE_INSTRUMENTAL
       (set_depvarname "y" (set_file "in.csv" (new_ArgumentHandler 0 ["grf"]))))
    [] in
  fst (checkArguments p) = Thrown (rule_error instrument_present)
  /\ fst (checkArguments p) <> Thrown (rule_error status_present).
Proof.
  intro p.
  apply (proj2 checkArguments_first_violated_rule p);
    solve [reflexivity | discriminate].
Defined.

(** C10: the fifth check of [checkArguments] is unreachable.  Its guard
    is the guard of the third check, so a configuration on which it
    holds has left the function at the third check or before, and the
    message of the fifth check is never the error of [checkArguments]. *)
Theorem checkArguments_fifth_check_unreachable :
  forall p : process,
    fst (checkArguments p) <> Thrown (runtime_error only_applicable_message)
    /\ (is_instrumental (this p) && string_empty (instrumentvarname (this p))
          = true ->
        exists r, In r [input_file_present; predict_or_depvarname_present;
                        instrument_present]
                  /\ checkArguments p = (Thrown (rule_error r), p)).
Proof.
  intros [a o]. run_check. cbn [this]. unfold only_applicable_message.
  destruct (string_empty (file a)).
  { split; [discriminate |]. intros _. exists input_file_present.
    split; [simpl; auto | reflexivity]. }
  destruct (string_empty (predict a) && string_empty (depvarname a)).
  { split; [discriminate |]. intros _. exists predict_or_depvarname_present.
    split; [simpl; auto | reflexivity]. }
  destruct (treetype a); cbn [andb].
  - split; [| discriminate].
    destruct (negb (empty (alwayssplitvars a))),
      (negb (string_empty (splitweights a))); discriminate.
  - destruct (string_empty (instrumentvarname a)).
    { split; [discriminate |]. intros _. exists instrument_present.
      split; [simpl; auto | reflexivity]. }
    split; [| discriminate].
    destruct (string_empty (statusvarname a)); [discriminate |].
    destruct (negb (empty (alwayssplitvars a))),
      (negb (string_empty (splitweights a))); discriminate.
Qed.

Lemma checkArguments_fifth_check_unreachable_witness :
  let p := mkprocess
    (set_treetype TREE_INSTRUMENTAL
       (set_depvarname "y" (set_file "in.csv" (new_ArgumentHandler 0 ["grf"]))))
    [] in
  exists r, In r [input_file_present; predict_or_depvarname_present;
                  instrument_present]
            /\ checkArguments p = (Thrown (rule_error r), p).
Proof.
  intro p.
  apply (proj2 (checkArguments_fifth_check_unreachable p)). reflexivity.
Defined.

(** ** Comparisons of doubles *)

Lemma SFcompare_swap (a b : double) :
  SFcompare b a = option_map CompOpp (SFcompare a b).
Proof.
  destruct a as [sa | sa | | sa ma ea], b as [sb | sb | | sb mb eb];
    cbn; try reflexivity;
    try (destruct sa; reflexivity); try (destruct sb; reflexivity);
    try (destruct sa, sb; reflexivity).
  pose proof (Pos.compare_cont_antisym ma mb Eq) as H.
  change (CompOpp Eq) with Eq in H.
  destruct sa, sb; cbn; try reflexivity;
    rewrite (Z.compare_antisym ea eb);
    destruct (ea ?= eb); cbn; try reflexivity;
    f_equal; (exact (eq_sym H) || (f_equal; exact (eq_sym H))).
Qed.

Lemma dle_not_dgt (a b : double) : dle a b = true -> dgt a b = false.
Proof.
  unfold dle, dgt, SFleb, SFltb. rewrite (SFcompare_swap a b).
  destruct (SFcompare a b) as [[| |] |]; cbn; congruence.
Qed.

Lemma dlt_not_dle (a b : double) : dlt a b = true -> dle b a = false.
Proof.
  unfold dlt, dle, SFleb, SFltb. rewrite (SFcompare_swap a b).
  destruct (SFcompare a b) as [[| |] |]; cbn; congruence.
Qed.

Lemma dlt_not_dge (a b : double) : dlt a b = true -> dge a b = false.
Proof.
  unfold dlt, dge, SFleb, SFltb. rewrite (SFcompare_swap a b).
  destruct (SFcompare a b) as [[| |] |]; cbn; congruence.
Qed.

(** ** The numeric options *)

Lemma integer_option_accepts o p a n :
  In o integer_options ->
  std_stoi a = Normal n -> int_min o <= n ->
  switch (int_val o) (Some a) p
    = (Normal None, with_this (int_set o n (this p)) p)
  /\ int_get o (int_set o n (this p)) = n.
Proof.
  intros Ho Ha Hn. simpl in Ho.
  repeat (destruct Ho as [<- | Ho]; [| try contradiction]);
    cbn [int_val int_set int_get int_min] in *; (split; [| reflexivity]);
    run; rewrite Ha;
    match goal with
    | |- context [n <? ?k] => destruct (Z.ltb_spec n k); [lia | reflexivity]
    end.
Qed.

Lemma integer_option_rejects o p a :
  In o integer_options ->
  (exists n, std_stoi a = Normal n /\ n < int_min o)
  \/ (exists e, std_stoi a = Thrown e) ->
  switch (int_val o) (Some a) p
    = (Thrown (illegal_argument (int_name o) "a positive integer"), p).
Proof.
  intros Ho Ha. simpl in Ho.
  repeat (destruct Ho as [<- | Ho]; [| try contradiction]);
    cbn [int_val int_set int_get int_min int_name] in *;
    destruct Ha as [(n & Ha & Hn) | (e & Ha)];
    run; rewrite Ha; try reflexivity;
    match goal with
    | |- context [n <? ?k] => destruct (Z.ltb_spec n k); [reflexivity | lia]
    end.
Qed.

Lemma fraction_accepts p a d :
  std_stod a = Normal d ->
  dlt (double_of_int 0) d && dle d (double_of_int 1) = true ->
  switch "F" (Some a) p = (Normal None, with_this (set_fraction d (this p)) p).
Proof.
  intros Ha Hd. apply andb_prop in Hd as [H0 H1].
  run. rewrite Ha. cbn [fraction set_fraction].
  rewrite (dle_not_dgt _ _ H1), (dlt_not_dle _ _ H0). reflexivity.
Qed.

Lemma fraction_rejects p a d :
  std_stod a = Normal d ->
  dgt d (double_of_int 1) || dle d (double_of_int 0) = true ->
  switch "F" (Some a) p
    = (Thrown fraction_error, with_this (set_fraction d (this p)) p).
Proof.
  intros Ha Hd. run. rewrite Ha. cbn [fraction set_fraction].
  rewrite Hd. reflexivity.
Qed.

Lemma fraction_malformed p a e :
  std_stod a = Thrown e ->
  switch "F" (Some a) p = (Thrown fraction_error, p).
Proof. intros Ha. run. rewrite Ha. reflexivity. Qed.

(** C6, as amended: an integer option ([ntree], [mtry],
    [targetpartitionsize], [nthreads], [seed]) whose argument converts
    to a value at or above the option's minimum stores exactly that
    value; when the value is below the minimum or the conversion fails,
    the scan fails with the malformed-option error that names the
    option, and the process is as it was when the option was reached.
    [fraction] stores a value in (0,1]; a value above 1 or at most 0
    fails the scan with the error naming [fraction], and the member then
    holds the rejected value, which is assigned before it is tested;
    when the conversion fails the member is untouched. *)
Theorem numeric_options_store_or_fail :
  (forall o p a,
     In o integer_options ->
     (forall n, std_stoi a = Normal n -> int_min o <= n ->
        switch (int_val o) (Some a) p
          = (Normal None, with_this (int_set o n (this p)) p)
        /\ int_get o (int_set o n (this p)) = n)
     /\ ((exists n, std_stoi a = Normal n /\ n < int_min o)
         \/ (exists e, std_stoi a = Thrown e) ->
         forall p0, reaches p0 (int_val o) (Some a) p ->
           processArguments p0
             = (Thrown (illegal_argument (int_name o) "a positive integer"),
                p)))
  /\ (forall p a,
        (forall d, std_stod a = Normal d ->
           dlt (double_of_int 0) d && dle d (double_of_int 1) = true ->
           switch "F" (Some a) p
             = (Normal None, with_this (set_fraction d (this p)) p)
           /\ fraction (set_fraction d (this p)) = d)
        /\ (forall d, std_stod a = Normal d ->
              dgt d (double_of_int 1) || dle d (double_of_int 0) = true ->
              forall p0, reaches p0 "F" (Some a) p ->
                processArguments p0
                  = (Thrown fraction_error,
                     with_this (set_fraction d (this p)) p))
        /\ (forall e, std_stod a = Thrown e ->
              forall p0, reaches p0 "F" (Some a) p ->
                processArguments p0 = (Thrown fraction_error, p))).
Proof.
  split.
  - intros o p a Ho. split.
    + intros n Ha Hn. now apply integer_option_accepts.
    + intros Ha p0 Hr. eapply processArguments_throws; [exact Hr |].
      now apply integer_option_rejects.
  - intros p a. split; [| split].
    + intros d Ha Hd. split; [now apply fraction_accepts | reflexivity].
    + intros d Ha Hd p0 Hr. eapply processArguments_throws; [exact Hr |].
      now apply fraction_rejects.
    + intros e Ha p0 Hr. eapply processArguments_throws; [exact Hr |].
      eapply fraction_malformed; eassumption.
Qed.

Lemma numeric_options_store_or_fail_witness :
  let p0 := mkprocess (new_ArgumentHandler 0 ["grf"; "--ntree"; "0"]) [] in
  let p1 := mkprocess (new_ArgumentHandler 0 ["grf"; "--fraction"; "1.5"]) [] in
  let p2 := mkprocess (new_ArgumentHandler 0 ["grf"; "--fraction"; "x"]) [] in
  let half := S754_finite false 4503599627370496 (-53) in
  let one_and_a_half := S754_finite false 6755399441055744 (-52) in
  processArguments p0
    = (Thrown (illegal_argument "ntree" "a positive integer"), p0)
  /\ switch "z" (Some "0") p0 = (Normal None, with_this (set_seed 0 (this p0)) p0)
  /\ switch "F" (Some "0.5") p0
     = (Normal None, with_this (set_fraction half (this p0)) p0)
  /\ processArguments p1
     = (Thrown fraction_error,
        with_this (set_fraction one_and_a_half (this p1)) p1)
  /\ processArguments p2 = (Thrown fraction_error, p2).
Proof.
  intros p0 p1 p2 half one_and_a_half.
  split; [| split; [| split; [| split]]].
  - apply (proj2 (proj1 numeric_options_store_or_fail
                    (mkint "t" "ntree" 1 set_ntree ntree) p0 "0"
                    (or_introl eq_refl))).
    + left. exists 0. split; [reflexivity | cbn; lia].
    + exists [], [], []. split; reflexivity.
  - apply (proj1 (proj1 numeric_options_store_or_fail
                    (mkint "z" "seed" 0 set_seed seed) p0 "0"
                    (or_intror (or_intror (or_intror (or_intror
                       (or_introl eq_refl)))))) 0).
    + reflexivity.
    + cbn; lia.
  - apply (proj1 (proj2 numeric_options_store_or_fail p0 "0.5") half);
      reflexivity.
  - apply (proj1 (proj2 (proj2 numeric_options_store_or_fail p1 "1.5"))
             one_and_a_half); [reflexivity | reflexivity |].
    exists [], [], []. split; reflexivity.
  - apply (proj2 (proj2 (proj2 numeric_options_store_or_fail p2 "x"))
             (invalid_argument "stod")); [reflexivity |].
    exists [], [], []. split; reflexivity.
Defined.

(** C6 as stated fails: [--fraction 1.5] violates the bound and fails
    the scan, but [fraction] does not keep its previous value 1: it
    holds 1.5. *)
Lemma fraction_keeps_previous_value_counterexample :
  let p0 := mkprocess (new_ArgumentHandler 0 ["grf"; "--fraction"; "1.5"]) [] in
  let one_and_a_half := S754_finite false 6755399441055744 (-52) in
  std_stod "1.5" = Normal one_and_a_half
  /\ dle one_and_a_half (double_of_int 1) = false
  /\ fst (processArguments p0) = Thrown fraction_error
  /\ fraction (this p0) = double_of_int 1
  /\ fraction (this (snd (processArguments p0))) = one_and_a_half
  /\ fraction (this (snd (processArguments p0))) <> fraction (this p0).
Proof.
  vm_compute. repeat split; try reflexivity. discriminate.
Qed.

(** ** The tree type *)

(** C7: the tree-type option accepts the codes 11 and 15 and no other:
    11 sets the tree type to Quantile and 15 to Instrumental; any other
    integer, the codes 1 and 3 of the help text among them, fails the
    scan with the malformed-option error of [treetype], as a text that
    is no integer does, and leaves the process as it was. *)
Theorem treetype_closed_set :
  forall p a,
    (std_stoi a = Normal 11 ->
       switch "y" (Some a) p
         = (Normal None, with_this (set_treetype TREE_QUANTILE (this p)) p)
       /\ treetype (set_treetype TREE_QUANTILE (this p)) = TREE_QUANTILE)
    /\ (std_stoi a = Normal 15 ->
          switch "y" (Some a) p
            = (Normal None,
               with_this (set_treetype TREE_INSTRUMENTAL (this p)) p)
          /\ treetype (set_treetype TREE_INSTRUMENTAL (this p))
             = TREE_INSTRUMENTAL)
    /\ ((exists n, std_stoi a = Normal n /\ n <> 11 /\ n <> 15)
        \/ (exists e, std_stoi a = Thrown e) ->
        switch "y" (Some a) p = (Thrown treetype_error, p)
        /\ forall p0, reaches p0 "y" (Some a) p ->
             processArguments p0 = (Thrown treetype_error, p))
    /\ switch "y" (Some "1") p = (Thrown treetype_error, p)
    /\ switch "y" (Some "3") p = (Thrown treetype_error, p).
Proof.
  intros p a.
  assert (Hbad : (exists n, std_stoi a = Normal n /\ n <> 11 /\ n <> 15)
                 \/ (exists e, std_stoi a = Thrown e) ->
                 switch "y" (Some a) p = (Thrown treetype_error, p)).
  { intros [(n & Ha & H11 & H15) | (e & Ha)]; run; rewrite Ha;
      [| reflexivity].
    destruct (Z.eqb_spec n 11); [contradiction |].
    destruct (Z.eqb_spec n 15); [contradiction |]. reflexivity. }
  split; [| split; [| split; [| split]]].
  - intros Ha. split; [| reflexivity]. run. rewrite Ha. reflexivity.
  - intros Ha. split; [| reflexivity]. run. rewrite Ha. reflexivity.
  - intros Ha. split; [now apply Hbad |].
    intros p0 Hr. eapply processArguments_throws; [exact Hr |].
    now apply Hbad.
  - reflexivity.
  - reflexivity.
Qed.

Lemma treetype_closed_set_witness :
  let p0 := mkprocess (new_ArgumentHandler 0 ["grf"; "--treetype"; "3"]) [] in
  processArguments p0 = (Thrown treetype_error, p0)
  /\ switch "y" (Some "11") p0
     = (Normal None, with_this (set_treetype TREE_QUANTILE (this p0)) p0)
  /\ switch "y" (Some "15") p0
     = (Normal None, with_this (set_treetype TREE_INSTRUMENTAL (this p0)) p0)
  /\ switch "y" (Some "eleven") p0 = (Thrown treetype_error, p0).
Proof.
  intro p0. split; [| split; [| split]].
  - apply (proj1 (proj2 (proj2 (treetype_closed_set p0 "3")))).
    + left. exists 3. split; [reflexivity | split; lia].
    + exists [], [], []. split; reflexivity.
  - apply (proj1 (treetype_closed_set p0 "11")). reflexivity.
  - apply (proj1 (proj2 (treetype_closed_set p0 "15"))). reflexivity.
  - apply (proj1 (proj2 (proj2 (treetype_closed_set p0 "eleven")))).
    right. exists (invalid_argument "stoi"). reflexivity.
Defined.

(** ** The quantiles option *)

Lemma switch_quantiles (arg : string) (p : process) :
  switch "q" (Some arg) p
  = (for_each (splitString [] arg ",") push_quantile ;; break) p.
Proof. reflexivity. Qed.

Lemma pushed_nil (p : process) : pushed [] p = p.
Proof.
  unfold pushed. rewrite app_nil_r. destruct p as [a o], a; reflexivity.
Qed.

Lemma pushed_cons (q : double) (qs : list double) (p : process) :
  pushed qs (pushed [q] p) = pushed (q :: qs) p.
Proof.
  unfold pushed, with_this. cbn [this cout quantiles set_quantiles].
  rewrite <- app_assoc. reflexivity.
Qed.

Lemma push_proper arg q p :
  proper_quantile arg q -> push_quantile arg p = (Normal tt, pushed [q] p).
Proof.
  intros [Ha Hq]. apply andb_prop in Hq as [H0 H1].
  unfold push_quantile. run. rewrite Ha.
  rewrite (dlt_not_dge _ _ H1), (dlt_not_dle _ _ H0). reflexivity.
Qed.

Lemma push_improper arg e p :
  improper_quantile arg e -> push_quantile arg p = (Thrown e, p).
Proof.
  intros [Ha | (q & Ha & Hq & ->)]; unfold push_quantile; run; rewrite Ha;
    [reflexivity |].
  rewrite Hq. reflexivity.
Qed.

Lemma for_each_proper args qs p :
  Forall2 proper_quantile args qs ->
  for_each args push_quantile p = (Normal tt, pushed qs p).
Proof.
  intros H; revert p; induction H as [| arg q args qs Hq _ IH]; intro p.
  - rewrite pushed_nil. reflexivity.
  - cbn [for_each]. unfold bind. rewrite (push_proper _ _ _ Hq).
    rewrite IH, pushed_cons. reflexivity.
Qed.

Lemma for_each_improper good qs bad rest e p :
  Forall2 proper_quantile good qs ->
  improper_quantile bad e ->
  for_each (good ++ bad :: rest) push_quantile p = (Thrown e, pushed qs p).
Proof.
  intros H Hbad; revert p; induction H as [| arg q args qs Hq _ IH]; intro p.
  - cbn [app for_each]. unfold bind. rewrite (push_improper _ _ _ Hbad).
    rewrite pushed_nil. reflexivity.
  - cbn [app for_each]. unfold bind. rewrite (push_proper _ _ _ Hq).
    rewrite IH, pushed_cons. reflexivity.
Qed.

(** C1, as amended: when the comma-delimited argument of the quantiles
    option has an element whose conversion throws or whose value is at
    least 1 or at most 0, after elements that are numbers strictly
    between 0 and 1, the scan fails at that element with its exception;
    the elements before it have been appended to [quantiles] and stay
    there, the element itself and those after it are not stored. *)
Theorem quantiles_fail_at_first_improper_element :
  forall p arg good qs bad rest e,
    splitString [] arg "," = good ++ bad :: rest ->
    Forall2 proper_quantile good qs ->
    improper_quantile bad e ->
    switch "q" (Some arg) p = (Thrown e, pushed qs p)
    /\ quantiles (this (pushed qs p)) = quantiles (this p) ++ qs
    /\ forall p0, reaches p0 "q" (Some arg) p ->
         processArguments p0 = (Thrown e, pushed qs p).
Proof.
  intros p arg good qs bad rest e Hsplit Hgood Hbad.
  assert (Hs : switch "q" (Some arg) p = (Thrown e, pushed qs p)).
  { rewrite switch_quantiles, Hsplit. unfold bind.
    rewrite (for_each_improper _ _ _ _ _ _ Hgood Hbad). reflexivity. }
  split; [exact Hs | split; [reflexivity |]].
  intros p0 Hr. eapply processArguments_throws; eassumption.
Qed.

Lemma quantiles_fail_at_first_improper_element_witness :
  let p0 :=
    mkprocess (new_ArgumentHandler 0 ["grf"; "--quantiles"; "0.1,1.0,0.2"]) [] in
  processArguments p0
    = (Thrown quantiles_error,
       pushed [S754_finite false 7205759403792794 (-56)] p0).
Proof.
  intro p0.
  apply (proj2 (proj2
    (quantiles_fail_at_first_improper_element p0 "0.1,1.0,0.2"
       ["0.1"] [S754_finite false 7205759403792794 (-56)] "1.0" ["0.2"]
       quantiles_error eq_refl
       (Forall2_cons "0.1" (S754_finite false 7205759403792794 (-56))
          (conj eq_refl eq_refl) (Forall2_nil _))
       (or_intror (ex_intro _ (double_of_int 1)
          (conj eq_refl (conj eq_refl eq_refl))))))).
  exists [], [], []. split; reflexivity.
Defined.

(** C1 as stated fails: on [--quantiles 0.1,1.0] the element [1.0] is
    not below 1 and the scan fails, but [quantiles], empty before, then
    holds the element [0.1]. *)
Lemma quantiles_no_partial_store_counterexample :
  let p0 := mkprocess (new_ArgumentHandler 0 ["grf"; "--quantiles"; "0.1,1.0"]) [] in
  let tenth := S754_finite false 7205759403792794 (-56) in
  splitString [] "0.1,1.0" "," = ["0.1"; "1.0"]
  /\ std_stod "1.0" = Normal (double_of_int 1)
  /\ fst (processArguments p0) = Thrown quantiles_error
  /\ quantiles (this p0) = []
  /\ quantiles (this (snd (processArguments p0))) = [tenth]
  /\ quantiles (this (snd (processArguments p0))) <> quantiles (this p0).
Proof.
  vm_compute. repeat split; try reflexivity. discriminate.
Qed.

(** ** Help and version *)

Lemma scan_help (rest : list string) :
  scan short_options long_options ("--help" :: rest)
  = (("h"%char, None) :: fst (scan short_options long_options rest),
     snd (scan short_options long_options rest)).
Proof.
  cbn [scan]. cbv beta iota.
  change (String.eqb "--help" "--") with false.
  change (nonoption "--help") with false.
  change (element short_options long_options "--help")
    with ([("h"%char, @None string)], @None ascii).
  cbv beta iota.
  destruct (scan short_options long_options rest); reflexivity.
Qed.

Lemma scan_version (rest : list string) :
  scan short_options long_options ("--version" :: rest)
  = (("Z"%char, None) :: fst (scan short_options long_options rest),
     snd (scan short_options long_options rest)).
Proof.
  cbn [scan]. cbv beta iota.
  change (String.eqb "--version" "--") with false.
  change (nonoption "--version") with false.
  change (element short_options long_options "--version")
    with ([("Z"%char, @None string)], @None ascii).
  cbv beta iota.
  destruct (scan short_options long_options rest); reflexivity.
Qed.

(** C2, as amended: when the scan comes to a help or version option,
    every option before it having been handled without an error,
    [processArguments] prints the text and returns -1 with the
    configuration built so far; nothing after the option is processed,
    whatever it is.  In particular [--help] or [--version] as the first
    argument gives this outcome for every rest of the command line. *)
Theorem help_or_version_when_reached :
  (forall p0 p c optarg,
     reaches p0 c optarg p ->
     (c = "h"%char ->
        processArguments p0
          = (Normal (-1),
             mkprocess (this p) (cout p ++ [HelpText (hd "" (argv (this p)))])))
     /\ (c = "Z"%char ->
           processArguments p0
             = (Normal (-1), mkprocess (this p) (cout p ++ [VersionText]))))
  /\ (forall p0 argv0 rest,
        argv (this p0) = argv0 :: "--help" :: rest ->
        processArguments p0
          = (Normal (-1), mkprocess (this p0) (cout p0 ++ [HelpText argv0])))
  /\ (forall p0 argv0 rest,
        argv (this p0) = argv0 :: "--version" :: rest ->
        processArguments p0
          = (Normal (-1), mkprocess (this p0) (cout p0 ++ [VersionText]))).
Proof.
  assert (H : forall p0 p c optarg,
     reaches p0 c optarg p ->
     (c = "h"%char ->
        processArguments p0
          = (Normal (-1),
             mkprocess (this p) (cout p ++ [HelpText (hd "" (argv (this p)))])))
     /\ (c = "Z"%char ->
           processArguments p0
             = (Normal (-1), mkprocess (this p) (cout p ++ [VersionText])))).
  { intros p0 p c optarg Hr.
    split; intros ->;
      (eapply processArguments_leaves; [exact Hr | reflexivity | reflexivity]). }
  split; [exact H | split].
  - intros p0 argv0 rest Hargv.
    assert (Hr : reaches p0 "h" None p0).
    { exists [], (fst (scan short_options long_options rest)),
        (snd (scan short_options long_options rest)).
      split; [| reflexivity].
      rewrite Hargv. unfold getopt_long. cbn [tl]. apply scan_help. }
    rewrite (proj1 (H _ _ _ _ Hr) eq_refl), Hargv. reflexivity.
  - intros p0 argv0 rest Hargv.
    assert (Hr : reaches p0 "Z" None p0).
    { exists [], (fst (scan short_options long_options rest)),
        (snd (scan short_options long_options rest)).
      split; [| reflexivity].
      rewrite Hargv. unfold getopt_long. cbn [tl]. apply scan_version. }
    exact (proj2 (H _ _ _ _ Hr) eq_refl).
Qed.

Lemma help_or_version_when_reached_witness :
  let p0 :=
    mkprocess
      (new_ArgumentHandler 0 ["grf"; "--help"; "--ntree"; "0"; "--bogus"]) [] in
  let p1 :=
    mkprocess
      (new_ArgumentHandler 0 ["grf"; "--ntree"; "10"; "-Z"; "--ntree"; "0"]) [] in
  processArguments p0
    = (Normal (-1), mkprocess (this p0) (cout p0 ++ [HelpText "grf"]))
  /\ processArguments p1
     = (Normal (-1), mkprocess (set_ntree 10 (this p1)) [VersionText]).
Proof.
  intros p0 p1. split.
  - apply (proj1 (proj2 help_or_version_when_reached) p0 "grf"
             ["--ntree"; "0"; "--bogus"]).
    reflexivity.
  - apply (proj2 (proj1 help_or_version_when_reached p1
                    (with_this (set_ntree 10 (this p1)) p1) "Z"%char None
                    (ex_intro _ [("t"%char, Some "10")]
                       (ex_intro _ [("t"%char, Some "0")]
                          (ex_intro _ [] (conj eq_refl eq_refl)))))
             eq_refl).
Defined.

(** C2 as stated fails: [--ntree 0 --help] contains the help option,
    yet the scan ends with the parse error of [ntree], which comes
    first, and not with the informational exit. *)
Lemma help_after_invalid_option_counterexample :
  let p0 := mkprocess (new_ArgumentHandler 0 ["grf"; "--ntree"; "0"; "--help"]) [] in
  In "--help" (argv (this p0))
  /\ In ("h"%char, None)
       (fst (getopt_long (argv (this p0)) short_options long_options))
  /\ fst (processArguments p0)
     = Thrown (illegal_argument "ntree" "a positive integer")
  /\ fst (processArguments p0) <> Normal (-1)
  /\ cout (snd (processArguments p0)) = [].
Proof.
  vm_compute. repeat split; try reflexivity; try discriminate.
  - right; right; right; left; reflexivity.
  - right; left; reflexivity.
Qed.

(** ** Unrecognized options *)

Lemma while_getopt_unrecognized (results : list result) (p : process) :
  while_getopt results p = while_getopt (filter recognized results) p.
Proof.
  revert p; induction results as [| [c oa] results IH]; intro p.
  - reflexivity.
  - cbn [filter]. unfold recognized at 1. cbn [fst].
    destruct (Ascii.eqb_spec c "?") as [-> | Hc]; cbn [negb].
    + rewrite <- IH. reflexivity.
    + cbn [while_getopt]. unfold bind.
      destruct (switch c oa p) as [[[v |] | e |] p1]; try reflexivity.
      apply IH.
Qed.

Lemma scan_unrecognized_long (text : string) (rest : list string) :
  find_long long_options (fst (split_eq text)) = NoMatch ->
  scan short_options long_options (("--" ++ text)%string :: rest)
  = (("?"%char, None) :: fst (scan short_options long_options rest),
     snd (scan short_options long_options rest)).
Proof.
  intros H. destruct text as [| c text]; [discriminate H |].
  cbn [scan]. cbv beta iota.
  change (String.eqb ("--" ++ String c text) "--") with false.
  change (nonoption ("--" ++ String c text)) with false.
  change (element short_options long_options ("--" ++ String c text)%string)
    with (long_option long_options (String c text)).
  unfold long_option. destruct (split_eq (String c text)) as [nm value].
  cbn [fst] in H. rewrite H. cbv beta iota.
  destruct (scan short_options long_options rest); reflexivity.
Qed.

Lemma scan_unrecognized_short (c : ascii) (rest : list string) :
  short_spec short_options c = None ->
  c <> "-"%char ->
  scan short_options long_options (String "-" (String c "") :: rest)
  = (("?"%char, None) :: fst (scan short_options long_options rest),
     snd (scan short_options long_options rest)).
Proof.
  intros H Hc.
  assert (E : element short_options long_options (String "-" (String c ""))
              = ([("?"%char, @None string)], @None ascii)).
  { destruct c as [b0 b1 b2 b3 b4 b5 b6 b7].
    destruct b0, b1, b2, b3, b4, b5, b6, b7;
      first [ exfalso; apply Hc; reflexivity
            | vm_compute in H; discriminate H
            | reflexivity ]. }
  assert (N : String.eqb (String "-" (String c "")) "--" = false).
  { apply String.eqb_neq. intros Heq. apply Hc. now inversion Heq. }
  cbn [scan]. rewrite N.
  change (nonoption (String "-" (String c ""))) with false.
  cbv beta iota. rewrite E.
  destruct (scan short_options long_options rest); reflexivity.
Qed.

(** C3, as amended: an unrecognized option spelling is not fatal.
    [getopt_long] returns ['?'] for it, be it a long name that no
    option of the table starts with or a short character that is not in
    the option string; the [default] branch of the switch does nothing,
    and the scan goes on with the next argument: [processArguments]
    ends as it does on the same results without the ['?'] ones, the
    success outcome included. *)
Theorem unrecognized_option_is_skipped :
  (forall argv0 text rest,
     find_long long_options (fst (split_eq text)) = NoMatch ->
     getopt_long (argv0 :: ("--" ++ text)%string :: rest) short_options
       long_options
     = (("?"%char, None)
          :: fst (getopt_long (argv0 :: rest) short_options long_options),
        snd (getopt_long (argv0 :: rest) short_options long_options)))
  /\ (forall argv0 c rest,
        short_spec short_options c = None ->
        c <> "-"%char ->
        getopt_long (argv0 :: String "-" (String c "") :: rest) short_options
          long_options
        = (("?"%char, None)
             :: fst (getopt_long (argv0 :: rest) short_options long_options),
           snd (getopt_long (argv0 :: rest) short_options long_options)))
  /\ (forall optarg p, switch "?" optarg p = (Normal None, p))
  /\ (forall results p,
        while_getopt results p = while_getopt (filter recognized results) p).
Proof.
  split; [| split; [| split]].
  - intros argv0 text rest H. unfold getopt_long. cbn [tl].
    now apply scan_unrecognized_long.
  - intros argv0 c rest H Hc. unfold getopt_long. cbn [tl].
    now apply scan_unrecognized_short.
  - reflexivity.
  - apply while_getopt_unrecognized.
Qed.

Lemma unrecognized_option_is_skipped_witness :
  getopt_long ["grf"; "--bogus"; "--ntree"; "7"] short_options long_options
  = (("?"%char, None)
       :: fst (getopt_long ["grf"; "--ntree"; "7"] short_options long_options),
     snd (getopt_long ["grf"; "--ntree"; "7"] short_options long_options))
  /\ getopt_long ["grf"; "-Q"; "--ntree"; "7"] short_options long_options
     = (("?"%char, None)
          :: fst (getopt_long ["grf"; "--ntree"; "7"] short_options
                    long_options),
        snd (getopt_long ["grf"; "--ntree"; "7"] short_options long_options)).
Proof.
  split.
  - apply (proj1 unrecognized_option_is_skipped "grf" "bogus" ["--ntree"; "7"]).
    reflexivity.
  - apply (proj1 (proj2 unrecognized_option_is_skipped) "grf" "Q"%char
             ["--ntree"; "7"]); [reflexivity | discriminate].
Defined.

(** C3 as stated fails: on [--bogus --ntree 7] the scan goes past the
    unrecognized [--bogus], stores 7 and returns the success outcome. *)
Lemma unrecognized_option_counterexample :
  let p0 :=
    mkprocess (new_ArgumentHandler 0 ["grf"; "--bogus"; "--ntree"; "7"]) [] in
  find_long long_options "bogus" = NoMatch
  /\ fst (getopt_long (argv (this p0)) short_options long_options)
     = [("?"%char, None); ("t"%char, Some "7")]
  /\ fst (processArguments p0) = Normal 0
  /\ ntree (this (snd (processArguments p0))) = 7.
Proof.
  vm_compute. repeat split; reflexivity.
Qed.

(** ** Malformed quantiles and NaN *)

(** C4: the code departs from the claim at [--quantiles abc].  The
    conversion of [abc] fails and the scan ends with the bare
    [std::invalid_argument] of [std::stod] (with [std::out_of_range]
    at [--quantiles 1e400]), whose text [stod] holds neither the
    option's name nor its range; the same text given to
    [fraction] ends with the malformed-option error that names
    [fraction], as it does for every other numeric option. *)
Theorem quantiles_malformed_element_escapes :
  let p0 := mkprocess (new_ArgumentHandler 0 ["grf"; "--quantiles"; "abc"]) [] in
  let p1 := mkprocess (new_ArgumentHandler 0 ["grf"; "--fraction"; "abc"]) [] in
  let p2 := mkprocess (new_ArgumentHandler 0 ["grf"; "--quantiles"; "1e400"]) [] in
  std_stod "abc" = Thrown (invalid_argument "stod")
  /\ processArguments p0 = (Thrown (invalid_argument "stod"), p0)
  /\ processArguments p2 = (Thrown (out_of_range "stod"), p2)
  /\ index 0 "quantiles" (what (invalid_argument "stod")) = None
  /\ index 0 "(0, 1)" (what (invalid_argument "stod")) = None
  /\ processArguments p1 = (Thrown fraction_error, p1)
  /\ index 0 "fraction" (what fraction_error) = Some 29%nat.
Proof.
  vm_compute. repeat split; reflexivity.
Qed.

(** C9: the code departs from the claim at [--fraction nan] and at
    [--quantiles nan].  [std::stod] converts [nan] to a NaN, every
    comparison with it is false, so neither range test rejects it: the
    scan returns 0 with a [fraction] that is neither the default 1 nor
    in (0,1], and with a stored quantile that is not strictly between 0
    and 1. *)
Theorem nan_passes_the_range_tests :
  let p0 := mkprocess (new_ArgumentHandler 0 ["grf"; "--fraction"; "nan"]) [] in
  let p1 := mkprocess (new_ArgumentHandler 0 ["grf"; "--quantiles"; "nan"]) [] in
  std_stod "nan" = Normal S754_nan
  /\ processArguments p0
     = (Normal 0, with_this (set_fraction S754_nan (this p0)) p0)
  /\ fraction (this (snd (processArguments p0))) <> fraction (this p0)
  /\ dlt (double_of_int 0) (fraction (this (snd (processArguments p0))))
     && dle (fraction (this (snd (processArguments p0)))) (double_of_int 1)
     = false
  /\ processArguments p1 = (Normal 0, pushed [S754_nan] p1)
  /\ forallb (fun q => dlt (double_of_int 0) q && dlt q (double_of_int 1))
       (quantiles (this (snd (processArguments p1)))) = false.
Proof.
  vm_compute. repeat split; try reflexivity. discriminate.
Qed.

(** ** Options given more than once *)

Lemma switch_default (c : ascii) (optarg : option string) :
  existsb (Ascii.eqb c) cases = false -> switch c optarg = break.
Proof.
  destruct c as [b0 b1 b2 b3 b4 b5 b6 b7].
  destruct b0, b1, b2, b3, b4, b5, b6, b7; intros H;
    first [reflexivity | vm_compute in H; discriminate H].
Qed.

(** What a scalar option stores depends on its argument alone. *)
Lemma scalar_option_stores o a q1 q1' :
  In o scalar_options ->
  switch (sc_val o) (Some a) q1 = (Normal None, q1') ->
  forall q2, exists q2',
    switch (sc_val o) (Some a) q2 = (Normal None, q2')
    /\ sc_get o (this q2') = sc_get o (this q1').
Proof.
  intros Ho H q2. simpl in Ho.
  repeat (destruct Ho as [<- | Ho]; [| try contradiction]);
    cbn [sc_val] in *; revert H; run; members;
    try (intros H; inversion H; subst; eexists; split; reflexivity);
    try (destruct (std_stoi a) as [n | e |]; try discriminate;
         repeat match goal with
                | |- context [if ?x then _ else _] => destruct x
                end;
         intros H; inversion H; subst; eexists; split; reflexivity).
  destruct (std_stod a) as [d | e |]; try discriminate. members.
  destruct (dgt d (double_of_int 1) || dle d (double_of_int 0));
    intros H; inversion H; subst; eexists; split; reflexivity.
Qed.

(** The quantiles loop touches no other member. *)
Lemma for_each_push_frame args p r p' :
  for_each args push_quantile p = (r, p') ->
  exists qs, this p' = set_quantiles qs (this p).
Proof.
  revert p; induction args as [| arg args IH]; intros p H.
  - inversion H; subst. exists (quantiles (this p')).
    destruct p' as [a o], a; reflexivity.
  - cbn [for_each] in H. unfold bind in H.
    destruct (push_quantile arg p) as [[[] | e |] p1] eqn:E.
    + apply IH in H as (qs & ->).
      revert E. unfold push_quantile. run.
      destruct (std_stod arg) as [d | e |]; try discriminate.
      destruct (dge d (double_of_int 1) || dle d (double_of_int 0));
        try discriminate.
      intros E; inversion E; subst. cbn [this]. eexists. reflexivity.
    + revert E. unfold push_quantile. run.
      destruct (std_stod arg) as [d | e' |]; try discriminate;
        [destruct (dge d (double_of_int 1) || dle d (double_of_int 0));
         try discriminate |];
        intros E; inversion E; subst; inversion H; subst;
        exists (quantiles (this p')); destruct p' as [a o], a; reflexivity.
    + revert E. unfold push_quantile. run.
      destruct (std_stod arg) as [d | e' |]; try discriminate;
        [destruct (dge d (double_of_int 1) || dle d (double_of_int 0));
         try discriminate |];
        intros E; inversion E; subst; inversion H; subst;
        exists (quantiles (this p')); destruct p' as [a o], a; reflexivity.
Qed.

(** An option of another character leaves a scalar member alone. *)
Lemma other_option_keeps o c optarg q q' :
  In o scalar_options ->
  c <> sc_val o ->
  switch c optarg q = (Normal None, q') ->
  sc_get o (this q') = sc_get o (this q).
Proof.
  intros Ho Hc H.
  destruct (existsb (Ascii.eqb c) cases) eqn:E.
  2:{ rewrite (switch_default _ _ E) in H. inversion H; reflexivity. }
  apply existsb_exists in E as (x & Hin & Hx).
  apply Ascii.eqb_eq in Hx; subst x.
  destruct (Ascii.eqb_spec c "q") as [-> | Hq].
  { destruct optarg as [arg |]; [| discriminate H].
    rewrite switch_quantiles in H. unfold bind in H.
    destruct (for_each (splitString [] arg ",") push_quantile q)
      as [[[] | e |] p1] eqn:F; try discriminate H.
    inversion H; subst. apply for_each_push_frame in F as (qs & ->).
    simpl in Ho.
    repeat (destruct Ho as [<- | Ho]; [| try contradiction]); reflexivity. }
  simpl in Hin, Ho.
  repeat (destruct Hin as [<- | Hin]; [| try contradiction]);
    try (exfalso; apply Hq; reflexivity);
    repeat (destruct Ho as [<- | Ho]; [| try contradiction]);
    try (exfalso; apply Hc; reflexivity);
    revert H; run; destruct optarg as [arg |]; try discriminate;
    intros H; cases_of H; try discriminate H;
    inversion H; subst; reflexivity.
Qed.

Lemma while_getopt_cons_runs c optarg post p p' :
  while_getopt ((c, optarg) :: post) p = (Normal None, p') ->
  exists p1, switch c optarg p = (Normal None, p1)
             /\ while_getopt post p1 = (Normal None, p').
Proof.
  cbn [while_getopt]. unfold bind.
  destruct (switch c optarg p) as [[[v |] | e |] p1]; try discriminate.
  intros H. exists p1. split; [reflexivity | exact H].
Qed.

Lemma while_getopt_app_runs pre post p p' :
  while_getopt (pre ++ post) p = (Normal None, p') ->
  exists p1, while_getopt pre p = (Normal None, p1)
             /\ while_getopt post p1 = (Normal None, p').
Proof.
  rewrite while_getopt_app.
  destruct (while_getopt pre p) as [[[v |] | e |] p1]; try discriminate.
  intros H. exists p1. split; [reflexivity | exact H].
Qed.

Lemma later_options_keep o post p p' :
  In o scalar_options ->
  (forall optarg, ~ In (sc_val o, optarg) post) ->
  while_getopt post p = (Normal None, p') ->
  sc_get o (this p') = sc_get o (this p).
Proof.
  intros Ho; revert p; induction post as [| [c oa] post IH]; intros p Hno H.
  - inversion H; reflexivity.
  - apply while_getopt_cons_runs in H as (p1 & Hs & H).
    assert (Hc : c <> sc_val o).
    { intros ->. apply (Hno oa). left; reflexivity. }
    rewrite (IH p1); [| | exact H].
    + eapply other_option_keeps; eassumption.
    + intros oa' Hin. apply (Hno oa'). right; exact Hin.
Qed.

(** C8, as amended: for an option stored in a scalar member, the last
    occurrence wins.  After a scan that runs through the results of
    [getopt_long], the member holds what the last occurrence of the
    option stores by itself, whatever the process it starts from: the
    occurrences before it leave no trace ([--ntree 10 --ntree 20] gives
    [ntree = 20]).  The quantiles option does not overwrite: every
    occurrence appends its values to [quantiles].  [alwayssplitvars] is
    handed to [splitString] with the variables it already holds. *)
Theorem last_occurrence_wins_for_scalars :
  (forall o pre a post p p',
     In o scalar_options ->
     while_getopt (pre ++ (sc_val o, Some a) :: post) p = (Normal None, p') ->
     (forall optarg, ~ In (sc_val o, optarg) post) ->
     forall q, exists q',
       switch (sc_val o) (Some a) q = (Normal None, q')
       /\ sc_get o (this p') = sc_get o (this q'))
  /\ (forall p arg qs,
        Forall2 proper_quantile (splitString [] arg ",") qs ->
        switch "q" (Some arg) p = (Normal None, pushed qs p)
        /\ quantiles (this (pushed qs p)) = quantiles (this p) ++ qs)
  /\ (forall p arg,
        switch "A" (Some arg) p
        = (Normal None,
           with_this
             (set_alwayssplitvars
                (splitString (alwayssplitvars (this p)) arg ",") (this p))
             p))
  /\ (let p0 :=
        mkprocess
          (new_ArgumentHandler 0 ["grf"; "--ntree"; "10"; "--ntree"; "20"]) [] in
      fst (processArguments p0) = Normal 0
      /\ ntree (this (snd (processArguments p0))) = 20).
Proof.
  split; [| split; [| split]].
  - intros o pre a post p p' Ho H Hno q.
    apply while_getopt_app_runs in H as (p1 & _ & H).
    apply while_getopt_cons_runs in H as (p2 & Hs & H).
    destruct (scalar_option_stores _ _ _ _ Ho Hs q) as (q' & Hq & Hget).
    exists q'. split; [exact Hq |].
    rewrite Hget. eapply later_options_keep; eassumption.
  - intros p arg qs H. split; [| reflexivity].
    rewrite switch_quantiles. unfold bind.
    rewrite (for_each_proper _ _ _ H). reflexivity.
  - reflexivity.
  - vm_compute. split; reflexivity.
Qed.

Lemma last_occurrence_wins_for_scalars_witness :
  let p := mkprocess (new_ArgumentHandler 0 []) [] in
  let tenth := S754_finite false 7205759403792794 (-56) in
  let fifth := S754_finite false 7205759403792794 (-55) in
  (exists q',
     switch "t" (Some "20") p = (Normal None, q')
     /\ Int 20 = Int (ntree (this q')))
  /\ switch "q" (Some "0.2") (pushed [tenth] p)
     = (Normal None, pushed [fifth] (pushed [tenth] p)).
Proof.
  intros p tenth fifth. split.
  - apply (proj1 last_occurrence_wins_for_scalars
             (mkscalar "t" (fun a => Int (ntree a)))
             [("t"%char, Some "10"); ("v"%char, None)] "20"
             [("f"%char, Some "in.csv")] p
             (with_this
                (set_file "in.csv"
                   (set_ntree 20 (set_verbose true (this p)))) p)).
    + simpl. tauto.
    + reflexivity.
    + intros optarg [H | []]. discriminate H.
  - apply (proj1 (proj2 last_occurrence_wins_for_scalars) (pushed [tenth] p)
             "0.2" [fifth]).
    apply Forall2_cons; [split; reflexivity | apply Forall2_nil].
Defined.

(** C8 as stated fails for the quantiles option: after
    [--quantiles 0.1 --quantiles 0.2] the member holds both values, not
    the value 0.2 of the last occurrence alone. *)
Lemma quantiles_last_wins_counterexample :
  let p0 :=
    mkprocess
      (new_ArgumentHandler 0
         ["grf"; "--quantiles"; "0.1"; "--quantiles"; "0.2"]) [] in
  let p1 := mkprocess (new_ArgumentHandler 0 ["grf"; "--quantiles"; "0.2"]) [] in
  let tenth := S754_finite false 7205759403792794 (-56) in
  let fifth := S754_finite false 7205759403792794 (-55) in
  fst (processArguments p0) = Normal 0
  /\ quantiles (this (snd (processArguments p1))) = [fifth]
  /\ quantiles (this (snd (processArguments p0))) = [tenth; fifth]
  /\ quantiles (this (snd (processArguments p0)))
     <> quantiles (this (snd (processArguments p1))).
Proof.
  vm_compute. repeat split; try reflexivity. discriminate.
Qed.

(** ** The configuration after a scan that returns *)

Lemma SFcompare_None (a b : double) :
  SFcompare a b = None -> is_nan a = true \/ is_nan b = true.
Proof.
  destruct a as [sa | sa | | sa ma ea], b as [sb | sb | | sb mb eb];
    cbn; auto; discriminate.
Qed.

(** Doubles that are not NaN are totally ordered. *)
Lemma dle_or_dlt (a b : double) :
  is_nan a = false -> is_nan b = false -> dle a b = true \/ dlt b a = true.
Proof.
  intros Ha Hb. unfold dle, dlt, SFleb, SFltb.
  rewrite (SFcompare_swap a b).
  destruct (SFcompare a b) as [[| |] |] eqn:E; cbn; auto.
  apply SFcompare_None in E as [E | E]; congruence.
Qed.

Lemma fraction_test_passed (d : double) :
  dgt d (double_of_int 1) || dle d (double_of_int 0) = false ->
  fraction_valid d = true \/ is_nan d = true.
Proof.
  intros H. apply orb_false_elim in H as [H1 H0].
  destruct (is_nan d) eqn:Hn; [right; reflexivity | left].
  unfold fraction_valid. apply andb_true_intro. split.
  - destruct (dle_or_dlt d (double_of_int 0) Hn eq_refl); congruence.
  - destruct (dle_or_dlt d (double_of_int 1) Hn eq_refl) as [H | H];
      [exact H |]. unfold dgt in H1. unfold dlt in H. congruence.
Qed.

Lemma quantile_test_passed (q : double) :
  dge q (double_of_int 1) || dle q (double_of_int 0) = false ->
  quantile_valid q = true \/ is_nan q = true.
Proof.
  intros H. apply orb_false_elim in H as [H1 H0].
  destruct (is_nan q) eqn:Hn; [right; reflexivity | left].
  unfold quantile_valid. apply andb_true_intro. split.
  - destruct (dle_or_dlt q (double_of_int 0) Hn eq_refl); congruence.
  - destruct (dle_or_dlt (double_of_int 1) q eq_refl Hn) as [H | H];
      [| exact H]. unfold dge in H1. unfold dle in H. congruence.
Qed.

Lemma validated_refl (a : ArgumentHandler) : validated a a.
Proof.
  constructor; auto. exists []. rewrite app_nil_r. auto.
Qed.

Lemma for_each_push_validated args p p' :
  for_each args push_quantile p = (Normal tt, p') ->
  exists qs, p' = pushed qs p
             /\ Forall (fun q => quantile_valid q = true \/ is_nan q = true)
                  qs.
Proof.
  revert p; induction args as [| arg args IH]; intros p H.
  - inversion H; subst. exists []. rewrite pushed_nil. auto.
  - cbn [for_each] in H. unfold bind in H.
    destruct (push_quantile arg p) as [[[] | e |] p1] eqn:E;
      try discriminate H.
    apply IH in H as (qs & -> & Hqs).
    revert E. unfold push_quantile. run.
    destruct (std_stod arg) as [d | e |]; try discriminate.
    destruct (dge d (double_of_int 1) || dle d (double_of_int 0)) eqn:T;
      try discriminate.
    intros E; inversion E; subst.
    exists (d :: qs). split.
    + exact (pushed_cons d qs p).
    + constructor; [now apply quantile_test_passed | exact Hqs].
Qed.

Lemma switch_validated a0 c optarg p r p' :
  validated a0 (this p) ->
  switch c optarg p = (Normal r, p') ->
  validated a0 (this p').
Proof.
  intros V H.
  destruct (existsb (Ascii.eqb c) cases) eqn:E.
  2:{ rewrite (switch_default _ _ E) in H. inversion H; subst; exact V. }
  apply existsb_exists in E as (x & Hin & Hx).
  apply Ascii.eqb_eq in Hx; subst x.
  destruct (Ascii.eqb_spec c "q") as [-> | Hq].
  { destruct optarg as [arg |]; [| discriminate H].
    rewrite switch_quantiles in H. unfold bind in H.
    destruct (for_each (splitString [] arg ",") push_quantile p)
      as [[[] | e |] p1] eqn:F; try discriminate H.
    inversion H; subst.
    apply for_each_push_validated in F as (qs & -> & Hqs).
    destruct V as [Vf Vn Vt Vm Vr Vs (qs0 & Vq & Hqs0)].
    constructor; try assumption.
    exists (qs0 ++ qs). unfold pushed. members. rewrite Vq, app_assoc.
    split; [reflexivity | apply Forall_app; auto]. }
  destruct p as [a o]. cbn [this] in V.
  destruct V as [Vf Vn Vt Vm Vr Vs Vq].
  simpl in Hin.
  repeat (destruct Hin as [<- | Hin]; [| try contradiction]);
    try (exfalso; apply Hq; reflexivity);
    revert H; run; destruct optarg as [arg |]; try discriminate;
    intros H; cases_eqn H; try discriminate H;
    inversion H; subst; constructor; members; try assumption;
    try (right; lia).
  right. now apply fraction_test_passed.
Qed.

Lemma while_getopt_validated a0 results p r p' :
  validated a0 (this p) ->
  while_getopt results p = (Normal r, p') ->
  validated a0 (this p').
Proof.
  revert p; induction results as [| [c oa] results IH]; intros p V H.
  - inversion H; subst; exact V.
  - cbn [while_getopt] in H. unfold bind in H.
    destruct (switch c oa p) as [[[v |] | e |] p1] eqn:E;
      try discriminate H.
    + inversion H; subst. eapply switch_validated; eassumption.
    + eapply IH; [| exact H]. eapply switch_validated; eassumption.
Qed.

Lemma for_each_print_this (others : list string) (p : process) :
  exists o, for_each others (fun param => print (OtherParameter param)) p
            = (Normal tt, mkprocess (this p) o).
Proof.
  revert p; induction others as [| x others IH]; intro p.
  - exists (cout p). destruct p; reflexivity.
  - cbn [for_each]. unfold bind, print at 1.
    destruct (IH (mkprocess (this p) (cout p ++ [OtherParameter x])))
      as (o & ->).
    exists o. reflexivity.
Qed.

(** X1: whenever [processArguments] returns, by [return 0] or by the early
    [return -1], the numeric members hold their initial value or one
    that passed its range test; apart from a NaN in [fraction] or in
    [quantiles], that value is within the range of the member. *)
Theorem processArguments_validated (p p' : process) (r : Z) :
  processArguments p = (Normal r, p') ->
  validated (this p) (this p').
Proof.
  unfold processArguments, member, bind at 1. cbn [this].
  destruct (getopt_long (argv (this p)) short_options long_options)
    as [results others].
  unfold bind at 1.
  destruct (while_getopt results p) as [[[v |] | e |] p1] eqn:E;
    try discriminate.
  - intros H; inversion H; subst.
    eapply while_getopt_validated; [apply validated_refl | exact E].
  - unfold bind.
    destruct (for_each_print_this others p1) as (o & ->).
    intros H; inversion H; subst. cbn [this].
    eapply while_getopt_validated; [apply validated_refl | exact E].
Qed.

(** ** The library calls *)

Lemma std_stoi_defined (s : string) : std_stoi s <> Undefined.
Proof.
  unfold std_stoi.
  destruct (take_sign (skip_space s)) as [neg r].
  destruct (take_digits r 0 0) as [[v n] r'].
  destruct (n =? 0); [discriminate |].
  destruct ((_ <? INT_MIN) || (INT_MAX <? _)); discriminate.
Qed.

Lemma std_stoi_int (s : string) (n : Z) :
  std_stoi s = Normal n -> INT_MIN <= n <= INT_MAX.
Proof.
  unfold std_stoi.
  destruct (take_sign (skip_space s)) as [neg r].
  destruct (take_digits r 0 0) as [[v k] r'].
  destruct (k =? 0); [discriminate |].
  destruct ((_ <? INT_MIN) || (INT_MAX <? _)) eqn:E; [discriminate |].
  intros H; inversion H; subst.
  apply orb_false_elim in E as [E1 E2].
  apply Z.ltb_ge in E1, E2. split; assumption.
Qed.

Lemma finish_result neg num den e2 r :
  finish neg num den e2 = r ->
  (exists d, r = Normal d) \/ r = Thrown (out_of_range "stod").
Proof.
  unfold finish. intros <-.
  destruct (round_fraction neg num den e2);
    try (destruct (_ && _)); eauto.
Qed.

Lemma std_stod_result (s : string) :
  (exists d, std_stod s = Normal d)
  \/ std_stod s = Thrown (invalid_argument "stod")
  \/ std_stod s = Thrown (out_of_range "stod").
Proof.
  unfold std_stod.
  destruct (take_sign (skip_space s)) as [neg r].
  destruct (strip_prefix_ci "inf" r); [eauto |].
  destruct (strip_prefix_ci "nan" r); [eauto |].
  assert (Hf : forall o : option (outcome double),
             (forall x, o = Some x ->
                (exists d, x = Normal d) \/ x = Thrown (out_of_range "stod")) ->
             forall dflt,
               ((exists d, dflt = Normal d)
                \/ dflt = Thrown (invalid_argument "stod")
                \/ dflt = Thrown (out_of_range "stod")) ->
               (exists d, match o with Some x => x | None => dflt end = Normal d)
               \/ match o with Some x => x | None => dflt end
                  = Thrown (invalid_argument "stod")
               \/ match o with Some x => x | None => dflt end
                  = Thrown (out_of_range "stod")).
  { intros [x |] Hx dflt Hd; [| exact Hd].
    destruct (Hx x eq_refl) as [H | H]; auto. }
  assert (Hhex : forall t x, hex_float neg t = Some x ->
             (exists d, x = Normal d) \/ x = Thrown (out_of_range "stod")).
  { intros t x. unfold hex_float.
    destruct (take_xdigits t 0 0) as [[m1 n1] r1].
    destruct (match r1 with
              | String "."%char r0 => take_xdigits r0 m1 0
              | _ => (m1, 0, r1)
              end) as [[m n2] r2].
    destruct (n1 + n2 =? 0); [discriminate |].
    intros H; inversion H. eapply finish_result; reflexivity. }
  assert (Hdec : forall x, dec_float neg r = Some x ->
             (exists d, x = Normal d) \/ x = Thrown (out_of_range "stod")).
  { intros x. unfold dec_float.
    destruct (take_digits r 0 0) as [[m1 n1] r1].
    destruct (match r1 with
              | String "."%char r0 => take_digits r0 m1 0
              | _ => (m1, 0, r1)
              end) as [[m n2] r2].
    destruct (n1 + n2 =? 0); [discriminate |].
    intros H; inversion H.
    destruct (0 <=? _); eapply finish_result; reflexivity. }
  apply Hf.
  - destruct (strip_prefix_ci "0x" r) as [t |]; [apply Hhex | discriminate].
  - apply Hf; [exact Hdec | auto].
Qed.

Lemma std_stod_defined (s : string) : std_stod s <> Undefined.
Proof.
  destruct (std_stod_result s) as [[d H] | [H | H]]; rewrite H; discriminate.
Qed.

Lemma std_stod_throws (s : string) (e : exn) :
  std_stod s = Thrown e ->
  e = invalid_argument "stod" \/ e = out_of_range "stod".
Proof.
  destruct (std_stod_result s) as [[d H] | [H | H]]; rewrite H;
    intros E; inversion E; auto.
Qed.

(** ** How one option can end *)

Lemma for_each_push_outcomes args p r p' :
  for_each args push_quantile p = (r, p') ->
  exists qs,
    p' = pushed qs p
    /\ match r with
       | Normal _ => True
       | Thrown e => In e scan_errors
       | Undefined => False
       end.
Proof.
  revert p; induction args as [| arg args IH]; intros p H.
  - inversion H; subst. exists []. rewrite pushed_nil. auto.
  - cbn [for_each] in H. unfold bind in H.
    destruct (push_quantile arg p) as [[[] | e |] p1] eqn:E.
    + apply IH in H as (qs & -> & Hr).
      revert E. unfold push_quantile. run.
      destruct (std_stod arg) as [d | e |]; try discriminate.
      destruct (dge d (double_of_int 1) || dle d (double_of_int 0));
        try discriminate.
      intros E; inversion E; subst.
      exists (d :: qs). split; [exact (pushed_cons d qs p) | exact Hr].
    + inversion H; subst. exists []. rewrite pushed_nil.
      revert E. unfold push_quantile. run.
      destruct (std_stod arg) as [d | e' |] eqn:S; try discriminate.
      * destruct (dge d (double_of_int 1) || dle d (double_of_int 0));
          try discriminate.
        intros E; inversion E; subst. split; [reflexivity |].
        unfold scan_errors. in_list.
      * intros E; inversion E; subst. split; [reflexivity |].
        destruct (std_stod_throws _ _ S) as [-> | ->];
          unfold scan_errors; in_list.
    + exfalso. revert E. unfold push_quantile. run.
      destruct (std_stod arg) as [d | e' |] eqn:S; try discriminate.
      * destruct (dge d (double_of_int 1) || dle d (double_of_int 0));
          discriminate.
      * intros _. exact (std_stod_defined _ S).
Qed.

(** Split on the character of an option: one with a case in the switch,
    the quantiles case apart, or none. *)
Lemma switch_case_analysis (c : ascii) :
  existsb (Ascii.eqb c) cases = false
  \/ c = "q"%char
  \/ In c (remove ascii_dec "q"%char cases).
Proof.
  destruct (existsb (Ascii.eqb c) cases) eqn:E; [| left; reflexivity].
  right. apply existsb_exists in E as (x & Hin & Hx).
  apply Ascii.eqb_eq in Hx; subst x.
  destruct (ascii_dec c "q") as [-> | Hq]; [left; reflexivity | right].
  apply in_in_remove; [exact Hq | exact Hin].
Qed.

(** The three kinds of goals of [switch_case_analysis], with the
    characters that have a case written out. *)
Ltac by_cases c H :=
  let E := fresh "E" in
  let Hin := fresh "Hin" in
  destruct (switch_case_analysis c) as [E | [-> | Hin]];
  [ rewrite (switch_default _ _ E) in H
  |
  | vm_compute in Hin;
    repeat (destruct Hin as [<- | Hin]; [| try contradiction]) ].

Lemma switch_returns c optarg p v p' :
  switch c optarg p = (Normal (Some v), p') ->
  v = -1
  /\ ((c = "h"%char
       /\ p' = mkprocess (this p)
                 (cout p ++ [HelpText (hd "" (argv (this p)))]))
      \/ (c = "Z"%char
          /\ p' = mkprocess (this p) (cout p ++ [VersionText]))).
Proof.
  intros H.
  by_cases c H;
    [ discriminate H
    | destruct optarg as [arg |]; [| discriminate H];
      rewrite switch_quantiles in H; unfold bind in H;
      destruct (for_each _ _ p) as [[[] | e |] p1]; discriminate H
    | revert H; run; destruct optarg as [arg |]; try discriminate;
      intros H; cases_of H; try discriminate H;
      inversion H; subst; auto .. ].
Qed.

Lemma switch_throws c optarg p e p' :
  switch c optarg p = (Thrown e, p') ->
  In e scan_errors
  /\ (p' = p
      \/ (c = "F"%char /\ exists d, p' = with_this (set_fraction d (this p)) p)
      \/ (c = "q"%char /\ exists qs, p' = pushed qs p)).
Proof.
  intros H.
  by_cases c H;
    [ discriminate H
    | destruct optarg as [arg |]; [| discriminate H];
      rewrite switch_quantiles in H; unfold bind in H;
      destruct (for_each _ _ p) as [[[] | e' |] p1] eqn:F;
      try discriminate H;
      inversion H; subst;
      apply for_each_push_outcomes in F as (qs & -> & He);
      split; [exact He |]; right; right; split; [reflexivity | eauto]
    | destruct p as [a o]; revert H; run;
      destruct optarg as [arg |]; try discriminate;
      intros H; cases_of H; try discriminate H;
      inversion H; subst; (split; [unfold scan_errors; in_list |]);
      first [ left; reflexivity
            | right; left; split; [reflexivity | eexists; reflexivity] ] .. ].
Qed.

Lemma switch_undefined c optarg p p' :
  switch c optarg p = (Undefined, p') ->
  optarg = None /\ In c reads_optarg /\ p' = p.
Proof.
  intros H.
  by_cases c H;
    [ discriminate H
    | destruct optarg as [arg |];
      [ exfalso; rewrite switch_quantiles in H; unfold bind in H;
        destruct (for_each _ _ p) as [[[] | e' |] p1] eqn:F;
        try discriminate H;
        apply for_each_push_outcomes in F as (qs & _ & [])
      | inversion H; subst; split; [reflexivity | split; [| reflexivity]];
        unfold reads_optarg; in_list ]
    | destruct p as [a o]; revert H; run;
      destruct optarg as [arg |]; try discriminate;
      intros H;
      try (exfalso; cases_eqn H; try discriminate H;
           solve [ eapply std_stoi_defined; eassumption
                 | eapply std_stod_defined; eassumption ]);
      inversion H; subst;
      (split; [reflexivity | split; [| reflexivity]]);
      unfold reads_optarg; in_list .. ].
Qed.

Lemma push_quantile_continues arg p p' :
  push_quantile arg p = (Normal tt, p') ->
  exists d, forall q, push_quantile arg q = (Normal tt, pushed [d] q).
Proof.
  unfold push_quantile. run.
  destruct (std_stod arg) as [d | e |]; try discriminate.
  destruct (dge d (double_of_int 1) || dle d (double_of_int 0));
    try discriminate.
  intros _. exists d. intros q. reflexivity.
Qed.

Lemma for_each_push_continues args p p' :
  for_each args push_quantile p = (Normal tt, p') ->
  exists qs, forall q, for_each args push_quantile q = (Normal tt, pushed qs q).
Proof.
  revert p; induction args as [| arg args IH]; intros p H.
  - exists []. intros q. rewrite pushed_nil. reflexivity.
  - cbn [for_each] in H. unfold bind in H.
    destruct (push_quantile arg p) as [[[] | e |] p1] eqn:E;
      try discriminate H.
    apply push_quantile_continues in E as (d & Hd).
    apply IH in H as (qs & Hqs).
    exists (d :: qs). intros q. cbn [for_each]. unfold bind.
    rewrite Hd, Hqs. rewrite pushed_cons. reflexivity.
Qed.

(** An option that lets the loop go on does so on every process, with
    the same assignment. *)
Lemma switch_continues c optarg p p' :
  switch c optarg p = (Normal None, p') ->
  exists f,
    touches c f
    /\ forall q, switch c optarg q = (Normal None, with_this (f (this q)) q).
Proof.
  intros H.
  by_cases c H;
    [ exists (fun a => a); split; [now constructor |];
      intros q; rewrite (switch_default _ _ E); destruct q; reflexivity
    | destruct optarg as [arg |]; [| discriminate H];
      rewrite switch_quantiles in H; unfold bind in H;
      destruct (for_each _ _ p) as [[[] | e |] p1] eqn:F;
      try discriminate H;
      apply for_each_push_continues in F as (qs & Hqs);
      exists (fun a => set_quantiles (quantiles a ++ qs) a);
      split; [constructor |];
      intros q; rewrite switch_quantiles; unfold bind; rewrite Hqs;
      reflexivity
    | destruct p as [a o]; revert H; run; members;
      destruct optarg as [arg |]; try discriminate;
      intros H; cases_eqn H; try discriminate H;
      eexists; (split; [econstructor |]);
      intros q; run; members; rewrite_cases; reflexivity .. ].
Qed.

Lemma switch_continues_at c optarg p p' f :
  switch c optarg p = (Normal None, p') ->
  (forall q, switch c optarg q = (Normal None, with_this (f (this q)) q)) ->
  p' = with_this (f (this p)) p.
Proof. intros H Hf. rewrite Hf in H. now inversion H. Qed.

(** Assignments of options of different characters commute. *)
Lemma touches_commute c1 c2 f1 f2 :
  touches c1 f1 -> touches c2 f2 -> c1 <> c2 ->
  forall a, f1 (f2 a) = f2 (f1 a).
Proof.
  intros H1 H2; destruct H1, H2; intros Hc a;
    first [reflexivity | exfalso; apply Hc; reflexivity].
Qed.

Lemma touches_argv c f a : touches c f -> argv (f a) = argv a.
Proof. intros H; destruct H; reflexivity. Qed.

(** ** How the scan can end *)

Lemma while_getopt_frame results p p' :
  while_getopt results p = (Normal None, p') ->
  cout p' = cout p /\ argv (this p') = argv (this p).
Proof.
  revert p; induction results as [| [c oa] results IH]; intros p H.
  - inversion H; subst; auto.
  - apply while_getopt_cons_runs in H as (p1 & Hs & H).
    apply IH in H as [-> ->].
    destruct (switch_continues _ _ _ _ Hs) as (f & Hf & Hq).
    rewrite (switch_continues_at _ _ _ _ _ Hs Hq).
    split; [reflexivity | apply (touches_argv _ _ _ Hf)].
Qed.

(** A loop that does not run through stops at one of the results, which
    the switch leaves as the loop does. *)
Lemma while_getopt_stops results p r p' :
  while_getopt results p = (r, p') ->
  r <> Normal None ->
  exists pre c optarg post p1,
    results = pre ++ (c, optarg) :: post
    /\ while_getopt pre p = (Normal None, p1)
    /\ switch c optarg p1 = (r, p').
Proof.
  revert p; induction results as [| [c oa] results IH]; intros p H Hr.
  - inversion H; subst. contradiction.
  - cbn [while_getopt] in H. unfold bind in H.
    destruct (switch c oa p) as [[[v |] | e |] p1] eqn:E.
    + exists [], c, oa, results, p. inversion H; subst. auto.
    + destruct (IH _ H Hr) as (pre & c' & oa' & post & p2 & -> & Hpre & Hs).
      exists ((c, oa) :: pre), c', oa', post, p2.
      split; [reflexivity | split; [| exact Hs]].
      cbn [while_getopt]. unfold bind. rewrite E. exact Hpre.
    + exists [], c, oa, results, p. inversion H; subst. auto.
    + exists [], c, oa, results, p. inversion H; subst. auto.
Qed.

Lemma for_each_print (others : list string) (p : process) :
  for_each others (fun param => print (OtherParameter param)) p
  = (Normal tt, mkprocess (this p) (cout p ++ map OtherParameter others)).
Proof.
  revert p; induction others as [| x others IH]; intro p.
  - cbn [for_each map]. rewrite app_nil_r. destruct p; reflexivity.
  - cbn [for_each map]. unfold bind, print at 1. rewrite IH.
    cbn [this cout]. rewrite <- app_assoc. reflexivity.
Qed.

(** [processArguments] either runs through all the results and returns
    0 after the report of the other parameters, or ends as the switch
    does at the option it stops at. *)
Lemma processArguments_cases p r p' :
  processArguments p = (r, p') ->
  (r = Normal 0
   /\ exists p1,
        while_getopt
          (fst (getopt_long (argv (this p)) short_options long_options)) p
        = (Normal None, p1)
        /\ p' = mkprocess (this p1)
                  (cout p1
                   ++ map OtherParameter
                        (snd (getopt_long (argv (this p)) short_options
                                long_options))))
  \/ (exists c optarg p1 r0,
        reaches p c optarg p1
        /\ switch c optarg p1 = (r0, p')
        /\ leaves r0 = Some r).
Proof.
  unfold processArguments, member, bind at 1. cbn [this].
  unfold reaches.
  destruct (getopt_long (argv (this p)) short_options long_options)
    as [results others].
  unfold bind at 1. cbn [fst snd].
  destruct (while_getopt results p) as [r0 p1] eqn:E.
  destruct r0 as [[v |] | e |].
  - intros H; inversion H; subst. right.
    destruct (while_getopt_stops _ _ _ _ E) as
      (pre & c & oa & post & p2 & -> & Hpre & Hs); [discriminate |].
    exists c, oa, p2, (Normal (Some v)). split; [| split; [exact Hs | reflexivity]].
    exists pre, post, others. auto.
  - unfold bind. rewrite for_each_print. intros H; inversion H; subst.
    left. split; [reflexivity |]. exists p1. auto.
  - intros H; inversion H; subst. right.
    destruct (while_getopt_stops _ _ _ _ E) as
      (pre & c & oa & post & p2 & -> & Hpre & Hs); [discriminate |].
    exists c, oa, p2, (Thrown e). split; [| split; [exact Hs | reflexivity]].
    exists pre, post, others. auto.
  - intros H; inversion H; subst. right.
    destruct (while_getopt_stops _ _ _ _ E) as
      (pre & c & oa & post & p2 & -> & Hpre & Hs); [discriminate |].
    exists c, oa, p2, Undefined. split; [| split; [exact Hs | reflexivity]].
    exists pre, post, others. auto.
Qed.

Lemma reaches_frame p c optarg p1 :
  reaches p c optarg p1 ->
  cout p1 = cout p /\ argv (this p1) = argv (this p).
Proof.
  intros (pre & post & others & _ & H). now apply while_getopt_frame in H.
Qed.



(** X3: when [processArguments] throws, the exception is one of ten: the
    malformed-option error of one of the seven numeric options, the
    range error of the quantiles, or one of the two exceptions of
    [std::stod] that the quantiles case lets through.  Nothing has been
    written, and the object is the one the scan had built when it came
    to the failing option, except that a [fraction] out of range has
    been assigned and that the quantiles before the failing one have
    been pushed. *)
Theorem processArguments_exceptions p e p' :
  processArguments p = (Thrown e, p') ->
  In e scan_errors
  /\ cout p' = cout p
  /\ exists c optarg p1,
       reaches p c optarg p1
       /\ (p' = p1
           \/ (c = "F"%char
               /\ exists d, p' = with_this (set_fraction d (this p1)) p1)
           \/ (c = "q"%char /\ exists qs, p' = pushed qs p1)).
Proof.
  intros H. apply processArguments_cases in H as
    [(Hr & _) | (c & oa & p1 & r0 & Hreach & Hs & Hl)]; [discriminate Hr |].
  destruct r0 as [[v |] | e0 |]; inversion Hl; subst.
  destruct (reaches_frame _ _ _ _ Hreach) as [Hc _].
  apply switch_throws in Hs as (He & Hp).
  split; [exact He | split].
  - destruct Hp as [-> | [(_ & d & ->) | (_ & qs & ->)]]; exact Hc.
  - exists c, oa, p1. auto.
Qed.

Lemma processArguments_exceptions_witness :
  let p :=
    mkprocess
      (new_ArgumentHandler 0 ["grf"; "-v"; "--quantiles"; "0.5,2"]) [] in
  let half := S754_finite false 4503599627370496 (-53) in
  In quantiles_error scan_errors
  /\ cout (pushed [half] (with_this (set_verbose true (this p)) p)) = cout p
  /\ exists c optarg p1,
       reaches p c optarg p1
       /\ (pushed [half] (with_this (set_verbose true (this p)) p) = p1
           \/ (c = "F"%char
               /\ exists d,
                    pushed [half] (with_this (set_verbose true (this p)) p)
                    = with_this (set_fraction d (this p1)) p1)
           \/ (c = "q"%char
               /\ exists qs,
                    pushed [half] (with_this (set_verbose true (this p)) p)
                    = pushed qs p1)).
Proof.
  intros p half.
  apply (processArguments_exceptions p quantiles_error
           (pushed [half] (with_this (set_verbose true (this p)) p))).
  reflexivity.
Defined.

(** ** Options without an argument *)

Lemma short_spec_null (c : ascii) (h : has_arg_t) :
  short_spec short_options c = Some h ->
  h <> required_argument ->
  In c null_optarg /\ (h = optional_argument -> c = "l"%char).
Proof.
  destruct c as [b0 b1 b2 b3 b4 b5 b6 b7].
  destruct b0, b1, b2, b3, b4, b5, b6, b7; intros H Hh;
    vm_compute in H; try discriminate H;
    inversion H; subst; try (exfalso; apply Hh; reflexivity);
    (split; [unfold null_optarg; in_list | intros E; first [reflexivity | discriminate E]]).
Qed.

Lemma short_cluster_null chars c :
  In (c, None) (fst (short_cluster short_options chars)) ->
  In c null_optarg.
Proof.
  induction chars as [| ch rest IH]; cbn [short_cluster].
  - intros [].
  - destruct (short_spec short_options ch) as [[| |] |] eqn:E.
    + destruct (short_cluster short_options rest) as [rs pend].
      cbn [fst] in *. intros [H | H]; [| exact (IH H)].
      inversion H; subst.
      apply (short_spec_null _ _ E). discriminate.
    + destruct (String.eqb rest ""); cbn [fst]; [intros [] |].
      intros [H | []]. discriminate H.
    + cbn [fst]. intros [H | []].
      destruct (String.eqb rest ""); inversion H; subst.
      apply (short_spec_null _ _ E). discriminate.
    + destruct (short_cluster short_options rest) as [rs pend].
      cbn [fst] in *. intros [H | H]; [| exact (IH H)].
      inversion H; subst. unfold null_optarg. in_list.
Qed.

Lemma find_long_In (longopts : list option_) (nm : string) (o : option_) :
  find_long longopts nm = Found o -> In o longopts.
Proof.
  unfold find_long.
  destruct (filter (fun o0 => String.eqb (name o0) nm) longopts)
    as [| o1 l1] eqn:E1.
  - destruct (filter (fun o0 => prefix nm (name o0)) longopts)
      as [| o2 l2] eqn:E2; [discriminate |].
    destruct (forallb _ l2); [| discriminate].
    intros H; inversion H; subst.
    assert (Hin : In o (filter (fun o0 => prefix nm (name o0)) longopts))
      by (rewrite E2; left; reflexivity).
    now apply filter_In in Hin.
  - intros H; inversion H; subst.
    assert (Hin : In o (filter (fun o0 => String.eqb (name o0) nm) longopts))
      by (rewrite E1; left; reflexivity).
    now apply filter_In in Hin.
Qed.

Lemma long_option_null text c :
  In (c, None) (fst (long_option long_options text)) ->
  In c null_optarg.
Proof.
  unfold long_option. destruct (split_eq text) as [nm value].
  destruct (find_long long_options nm) as [o | |] eqn:E.
  - apply find_long_In in E. simpl in E.
    repeat (destruct E as [<- | E]; [| try contradiction]);
      cbn [has_arg val]; destruct value; cbn [fst];
      intros H; simpl in H;
      first [ contradiction
            | destruct H as [H | []]; inversion H; unfold null_optarg;
              in_list ].
  - cbn [fst]. intros [H | []]; inversion H. unfold null_optarg. in_list.
  - cbn [fst]. intros [H | []]; inversion H. unfold null_optarg. in_list.
Qed.

Lemma element_null a c :
  In (c, None) (fst (element short_options long_options a)) ->
  In c null_optarg.
Proof.
  unfold element.
  destruct a as [| c0 [| c1 r]]; try (intros []).
  - destruct c0 as [[] [] [] [] [] [] [] []]; intros [].
  - destruct (ascii_dec c0 "-") as [-> | H0].
    + destruct (ascii_dec c1 "-") as [-> | H1].
      * apply long_option_null.
      * replace (match c1 with
                 | "-"%char => long_option long_options r
                 | _ => short_cluster short_options (String c1 r)
                 end) with (short_cluster short_options (String c1 r)).
        { apply short_cluster_null. }
        destruct c1 as [[] [] [] [] [] [] [] []]; try reflexivity.
        exfalso; apply H1; reflexivity.
    + destruct c0 as [[] [] [] [] [] [] [] []]; try (intros []).
      exfalso; apply H0; reflexivity.
Qed.

Lemma scan_null (n : nat) : forall args c,
  (List.length args <= n)%nat ->
  In (c, None) (fst (scan short_options long_options args)) ->
  In c null_optarg.
Proof.
  induction n as [| n IH]; intros [| a rest] c Hlen; cbn [scan];
    try (intros []); cbn [List.length] in Hlen; try lia.
  destruct (String.eqb a "--"); [intros [] |].
  destruct (nonoption a).
  - pose proof (IH rest c ltac:(lia)) as Hrest.
    destruct (scan short_options long_options rest) as [rs others].
    exact Hrest.
  - pose proof (element_null a c) as Hel.
    destruct (element short_options long_options a) as [here [pc |]].
    + destruct rest as [| x rest'].
      * cbn [fst] in *. intros H. apply in_app_or in H as [H | [H | []]];
          [exact (Hel H) |]. inversion H. unfold null_optarg. in_list.
      * pose proof (IH rest' c ltac:(cbn [List.length] in Hlen; lia)) as Hrest.
        destruct (scan short_options long_options rest') as [rs others].
        cbn [fst] in *. intros H. apply in_app_or in H as [H | [H | H]];
          [exact (Hel H) | discriminate H | exact (Hrest H)].
    + pose proof (IH rest c ltac:(lia)) as Hrest.
      destruct (scan short_options long_options rest) as [rs others].
      cbn [fst] in *. intros H. apply in_app_or in H as [H | H]; auto.
Qed.

(** The only options that reach their case with a null [optarg] are
    the short forms [-i] and a bare [-l]. *)
Lemma getopt_long_null a c :
  In (c, None) (fst (getopt_long a short_options long_options)) ->
  In c reads_optarg ->
  c = "i"%char \/ c = "l"%char.
Proof.
  intros H Hr. unfold getopt_long in H.
  apply (scan_null (List.length (tl a)) _ _ (le_n _)) in H.
  unfold null_optarg in H. unfold reads_optarg in Hr.
  simpl in H.
  repeat (destruct H as [<- | H]; [| try contradiction]);
    first [ left; reflexivity | right; reflexivity
          | exfalso; simpl in Hr;
            repeat (destruct Hr as [Hr | Hr]; [discriminate Hr |]);
            exact Hr ].
Qed.

(** X4: [processArguments] has undefined behaviour exactly when the scan
    comes to the short option [-i], which takes no argument in the
    option string, or to a [-l] with no value attached: the case then
    builds a [std::string] from a null [optarg].  The object is the one
    the scan had built till then. *)
Theorem processArguments_undefined_iff p p' :
  processArguments p = (Undefined, p')
  <-> reaches p "i" None p' \/ reaches p "l" None p'.
Proof.
  split.
  - intros H. apply processArguments_cases in H as
      [(Hr & _) | (c & oa & p1 & r0 & Hreach & Hs & Hl)]; [discriminate Hr |].
    destruct r0 as [[v |] | e0 |]; inversion Hl; subst.
    apply switch_undefined in Hs as (-> & Hc & ->).
    assert (Hin : In (c, None)
              (fst (getopt_long (argv (this p)) short_options long_options))).
    { destruct Hreach as (pre & post & others & -> & _).
      cbn [fst]. apply in_or_app. right. left. reflexivity. }
    destruct (getopt_long_null _ _ Hin Hc) as [-> | ->]; auto.
  - intros [H | H];
      (eapply processArguments_leaves; [exact H | reflexivity | reflexivity]).
Qed.

Lemma processArguments_undefined_iff_witness :
  let p :=
    mkprocess (new_ArgumentHandler 0 ["grf"; "-vi"; "z"; "--ntree"; "5"]) [] in
  processArguments p = (Undefined, with_this (set_verbose true (this p)) p).
Proof.
  intro p.
  apply (proj2 (processArguments_undefined_iff p
                  (with_this (set_verbose true (this p)) p))).
  left. exists [("v"%char, None)], [("t"%char, Some "5")], ["z"].
  split; reflexivity.
Defined.

(** ** The order of the options *)

(** X5: two neighbouring options of different characters can change
    places: when the scan runs through the results in one order, it
    runs through them in the other and builds the same object. *)
Theorem options_of_different_characters_commute
  pre c1 optarg1 c2 optarg2 post p p' :
  c1 <> c2 ->
  while_getopt (pre ++ (c1, optarg1) :: (c2, optarg2) :: post) p
    = (Normal None, p') ->
  while_getopt (pre ++ (c2, optarg2) :: (c1, optarg1) :: post) p
    = (Normal None, p').
Proof.
  intros Hc H.
  apply while_getopt_app_runs in H as (p0 & Hpre & H).
  apply while_getopt_cons_runs in H as (p1 & H1 & H).
  apply while_getopt_cons_runs in H as (p2 & H2 & H).
  destruct (switch_continues _ _ _ _ H1) as (f1 & T1 & Q1).
  destruct (switch_continues _ _ _ _ H2) as (f2 & T2 & Q2).
  rewrite (switch_continues_at _ _ _ _ _ H1 Q1) in H2.
  rewrite (switch_continues_at _ _ _ _ _ H2 Q2) in H.
  rewrite while_getopt_app, Hpre.
  cbn [while_getopt]. unfold bind.
  rewrite Q2, Q1. unfold with_this in *. cbn [this cout] in *.
  rewrite (touches_commute _ _ _ _ T1 T2 Hc). exact H.
Qed.

Lemma options_of_different_characters_commute_witness :
  let p := mkprocess (new_ArgumentHandler 0 []) [] in
  while_getopt
    ([("v"%char, None)]
     ++ [("S"%char, Some "w.txt"); ("A"%char, Some "x,y"); ("t"%char, Some "7")])
    p
  = (Normal None,
     with_this
       (set_ntree 7
          (set_alwayssplitvars ["x"; "y"]
             (set_splitweights "w.txt" (set_verbose true (this p))))) p).
Proof.
  intro p.
  apply (options_of_different_characters_commute
           [("v"%char, None)] "A" (Some "x,y") "S" (Some "w.txt")
           [("t"%char, Some "7")] p).
  - discriminate.
  - reflexivity.
Defined.

(** ** The flags *)

Lemma touches_flag o c f a :
  In o flag_options ->
  touches c f ->
  fl_given o (f a) = fl_given o a || Ascii.eqb c (fl_val o).
Proof.
  intros Ho H. simpl in Ho.
  repeat (destruct Ho as [<- | Ho]; [| try contradiction]);
    destruct H; cbn [fl_given fl_val]; members;
    try (cbn; rewrite ?orb_false_r, ?orb_true_r; reflexivity);
    match goal with
    | E : existsb _ cases = false |- _ =>
        cbn in E; repeat (apply orb_false_elim in E as [? E]);
        rewrite_cases; rewrite orb_false_r; reflexivity
    end.
Qed.

(** X6: a flag is on after a scan that runs through exactly when it was on
    before or its option is among the results: a flag is never turned
    off, and no other option turns it on. *)
Theorem flag_is_on_iff_given o results p p' :
  In o flag_options ->
  while_getopt results p = (Normal None, p') ->
  fl_given o (this p')
  = fl_given o (this p)
    || existsb (fun r => Ascii.eqb (fst r) (fl_val o)) results.
Proof.
  intros Ho; revert p; induction results as [| [c oa] results IH];
    intros p H.
  - inversion H; subst. cbn. rewrite orb_false_r. reflexivity.
  - apply while_getopt_cons_runs in H as (p1 & Hs & H).
    rewrite (IH _ H).
    destruct (switch_continues _ _ _ _ Hs) as (f & Hf & Hq).
    rewrite (switch_continues_at _ _ _ _ _ Hs Hq).
    cbn [this with_this existsb fst].
    rewrite (touches_flag _ _ _ _ Ho Hf), orb_assoc. reflexivity.
Qed.

Lemma flag_is_on_iff_given_witness :
  let p := mkprocess (new_ArgumentHandler 0 []) [] in
  negb (replace (set_file "x" (set_replace false (set_verbose true (this p)))))
  = negb (replace (this p))
    || existsb (fun r => Ascii.eqb (fst r) "u")
         [("v"%char, None); ("u"%char, None); ("f"%char, Some "x")].
Proof.
  intro p.
  apply (flag_is_on_iff_given (mkflag "u" (fun a => negb (replace a)))
           [("v"%char, None); ("u"%char, None); ("f"%char, Some "x")] p
           (with_this
              (set_file "x" (set_replace false (set_verbose true (this p))))
              p)).
  - simpl. tauto.
  - reflexivity.
Defined.

(** ** Parameters that are no options *)

Lemma nonoption_not_terminator (a : string) :
  nonoption a = true -> String.eqb a "--" = false.
Proof.
  intros H. apply String.eqb_neq. intros ->. discriminate H.
Qed.

Lemma scan_nonoptions (args : list string) :
  Forall (fun a => nonoption a = true) args ->
  scan short_options long_options args = ([], args).
Proof.
  induction 1 as [| a args Ha _ IH]; [reflexivity |].
  cbn [scan]. rewrite (nonoption_not_terminator _ Ha), Ha, IH. reflexivity.
Qed.

Lemma processArguments_no_results p others :
  getopt_long (argv (this p)) short_options long_options = ([], others) ->
  processArguments p
  = (Normal 0, mkprocess (this p) (cout p ++ map OtherParameter others)).
Proof.
  intros H. unfold processArguments, member, bind at 1. cbn [this].
  rewrite H. unfold bind at 1. cbn [while_getopt]. unfold ret at 1.
  unfold bind. rewrite for_each_print. reflexivity.
Qed.

(** X7: arguments that are no options are no error.  When every argument
    is one (none starts with a dash, or it is the single dash), and
    also when the first argument is [--], whatever follows it,
    [processArguments] returns 0, writes one line for each of them in
    their order and leaves the object as it is. *)
Theorem other_parameters_are_reported :
  (forall p argv0 args,
     argv (this p) = argv0 :: args ->
     Forall (fun a => nonoption a = true) args ->
     processArguments p
     = (Normal 0, mkprocess (this p) (cout p ++ map OtherParameter args)))
  /\ (forall p argv0 rest,
        argv (this p) = argv0 :: "--" :: rest ->
        processArguments p
        = (Normal 0, mkprocess (this p) (cout p ++ map OtherParameter rest))).
Proof.
  split.
  - intros p argv0 args Ha Hn. apply processArguments_no_results.
    rewrite Ha. unfold getopt_long. cbn [tl]. now apply scan_nonoptions.
  - intros p argv0 rest Ha. apply processArguments_no_results.
    rewrite Ha. reflexivity.
Qed.

Lemma other_parameters_are_reported_witness :
  let p := mkprocess (new_ArgumentHandler 0 ["grf"; "in.csv"; "-"; "y"]) [] in
  let q := mkprocess (new_ArgumentHandler 0 ["grf"; "--"; "--help"; "-x"]) [] in
  processArguments p
  = (Normal 0,
     mkprocess (this p)
       [OtherParameter "in.csv"; OtherParameter "-"; OtherParameter "y"])
  /\ processArguments q
     = (Normal 0,
        mkprocess (this q) [OtherParameter "--help"; OtherParameter "-x"]).
Proof.
  intros p q. split.
  - apply (proj1 other_parameters_are_reported p "grf" ["in.csv"; "-"; "y"]).
    + reflexivity.
    + repeat constructor.
  - apply (proj2 other_parameters_are_reported q "grf" ["--help"; "-x"]).
    reflexivity.
Defined.

(** ** Long and short spellings *)

Lemma scan_option (a : string) (rest : list string) :
  String.eqb a "--" = false ->
  nonoption a = false ->
  scan short_options long_options (a :: rest)
  = match element short_options long_options a with
    | (here, None) =>
        (here ++ fst (scan short_options long_options rest),
         snd (scan short_options long_options rest))
    | (here, Some c) =>
        match rest with
        | [] => (here ++ [("?"%char, None)], [])
        | x :: rest' =>
            (here ++ (c, Some x) :: fst (scan short_options long_options rest'),
             snd (scan short_options long_options rest'))
        end
    end.
Proof.
  intros H1 H2. cbn [scan]. rewrite H1, H2.
  destruct (element short_options long_options a) as [here [c |]].
  - destruct rest as [| x rest']; [reflexivity |].
    destruct (scan short_options long_options rest'); reflexivity.
  - destruct (scan short_options long_options rest); reflexivity.
Qed.

(** Run [scan] on a first element that is written out. *)
Ltac scan_spelling :=
  rewrite scan_option by reflexivity;
  match goal with
  | |- context [element short_options long_options ?a] =>
      let el := fresh "el" in
      set (el := element short_options long_options a);
      vm_compute in el; subst el
  end;
  cbv beta iota; cbn [app].

Lemma scan_required o x rest :
  In o long_options ->
  has_arg o = required_argument ->
  scan short_options long_options (long_spelling o :: x :: rest)
  = ((val o, Some x) :: fst (scan short_options long_options rest),
     snd (scan short_options long_options rest))
  /\ (~ In (val o) odd_short_forms ->
      scan short_options long_options (short_spelling o :: x :: rest)
      = ((val o, Some x) :: fst (scan short_options long_options rest),
         snd (scan short_options long_options rest))).
Proof.
  intros Ho Ha. simpl in Ho.
  repeat (destruct Ho as [<- | Ho]; [| try contradiction]);
    try discriminate Ha;
    unfold long_spelling, short_spelling; cbn [name val append];
    (split;
     [ scan_spelling; reflexivity
     | intros Hodd;
       first [ solve [exfalso; apply Hodd; unfold odd_short_forms; in_list]
             | scan_spelling; reflexivity ] ]).
Qed.

Lemma scan_flag o rest :
  In o long_options ->
  has_arg o = no_argument ->
  scan short_options long_options (long_spelling o :: rest)
  = ((val o, None) :: fst (scan short_options long_options rest),
     snd (scan short_options long_options rest))
  /\ scan short_options long_options (short_spelling o :: rest)
     = ((val o, None) :: fst (scan short_options long_options rest),
        snd (scan short_options long_options rest)).
Proof.
  intros Ho Ha. simpl in Ho.
  repeat (destruct Ho as [<- | Ho]; [| try contradiction]);
    try discriminate Ha;
    unfold long_spelling, short_spelling; cbn [name val append];
    (split; scan_spelling; reflexivity).
Qed.

(** X8: the long and the short spelling of an option are interchangeable,
    for every option of the table but [quantiles], [instrumentvarname]
    and [targetpartitionsize]: [getopt_long] returns the same value
    for both.  An option with an argument takes the next argument as
    it is, whatever its text, and no scan is made of it. *)
Theorem long_and_short_spellings_agree :
  forall o argv0 x rest,
    In o long_options ->
    ~ In (val o) odd_short_forms ->
    match has_arg o with
    | no_argument =>
        getopt_long (argv0 :: long_spelling o :: rest) short_options
          long_options
        = ((val o, None)
             :: fst (getopt_long (argv0 :: rest) short_options long_options),
           snd (getopt_long (argv0 :: rest) short_options long_options))
        /\ getopt_long (argv0 :: short_spelling o :: rest) short_options
             long_options
           = getopt_long (argv0 :: long_spelling o :: rest) short_options
               long_options
    | _ =>
        getopt_long (argv0 :: long_spelling o :: x :: rest) short_options
          long_options
        = ((val o, Some x)
             :: fst (getopt_long (argv0 :: rest) short_options long_options),
           snd (getopt_long (argv0 :: rest) short_options long_options))
        /\ getopt_long (argv0 :: short_spelling o :: x :: rest) short_options
             long_options
           = getopt_long (argv0 :: long_spelling o :: x :: rest) short_options
               long_options
    end.
Proof.
  intros o argv0 x rest Ho Hodd. unfold getopt_long. cbn [tl].
  destruct (has_arg o) eqn:Ha.
  - destruct (scan_flag o rest Ho Ha) as [Hl Hs]. rewrite Hl, Hs. auto.
  - destruct (scan_required o x rest Ho Ha) as [Hl Hs].
    rewrite Hl, (Hs Hodd). auto.
  - exfalso. simpl in Ho.
    repeat (destruct Ho as [<- | Ho]; [| try contradiction]);
      discriminate Ha.
Qed.

Lemma long_and_short_spellings_agree_witness :
  getopt_long ["grf"; "--file"; "--help"; "-v"] short_options long_options
  = (("f"%char, Some "--help")
       :: fst (getopt_long ["grf"; "-v"] short_options long_options),
     snd (getopt_long ["grf"; "-v"] short_options long_options))
  /\ getopt_long ["grf"; "-f"; "--help"; "-v"] short_options long_options
     = getopt_long ["grf"; "--file"; "--help"; "-v"] short_options
         long_options.
Proof.
  apply (long_and_short_spellings_agree
           (mkopt "file" required_argument "f") "grf" "--help" ["-v"]).
  - simpl. tauto.
  - unfold odd_short_forms. simpl. intros [H | [H | [H | []]]]; discriminate H.
Defined.

(** ** A missing argument *)

Lemma scan_required_last o :
  In o long_options ->
  has_arg o = required_argument ->
  scan short_options long_options [long_spelling o] = ([("?"%char, None)], [])
  /\ (~ In (val o) odd_short_forms ->
      scan short_options long_options [short_spelling o]
      = ([("?"%char, None)], [])).
Proof.
  intros Ho Ha. simpl in Ho.
  repeat (destruct Ho as [<- | Ho]; [| try contradiction]);
    try discriminate Ha;
    (split; [reflexivity |]); intros Hodd;
    first [ solve [exfalso; apply Hodd; unfold odd_short_forms; in_list]
          | reflexivity ].
Qed.

(** X9: an option that requires an argument and stands last, with nothing
    after it, is no error: [getopt_long] returns ['?'] for it, and
    [processArguments] returns 0 with the object and the output as they
    were. *)
Theorem missing_argument_is_ignored :
  forall o p argv0,
    In o long_options ->
    has_arg o = required_argument ->
    (argv (this p) = [argv0; long_spelling o] ->
     processArguments p = (Normal 0, p))
    /\ (~ In (val o) odd_short_forms ->
        argv (this p) = [argv0; short_spelling o] ->
        processArguments p = (Normal 0, p)).
Proof.
  intros o p argv0 Ho Ha.
  destruct (scan_required_last o Ho Ha) as [Hl Hs].
  assert (H : forall a, argv (this p) = [argv0; a] ->
            scan short_options long_options [a] = ([("?"%char, None)], []) ->
            processArguments p = (Normal 0, p)).
  { intros a Hargv Hscan.
    unfold processArguments, member, bind at 1. cbn [this].
    unfold getopt_long. rewrite Hargv. cbn [tl]. rewrite Hscan.
    destruct p; reflexivity. }
  split.
  - intros Hargv. exact (H _ Hargv Hl).
  - intros Hodd Hargv. exact (H _ Hargv (Hs Hodd)).
Qed.

Lemma missing_argument_is_ignored_witness :
  let p := mkprocess (new_ArgumentHandler 0 ["grf"; "--ntree"]) [] in
  let q := mkprocess (new_ArgumentHandler 0 ["grf"; "-f"]) [] in
  processArguments p = (Normal 0, p) /\ processArguments q = (Normal 0, q).
Proof.
  intros p q. split.
  - apply (proj1 (missing_argument_is_ignored
                    (mkopt "ntree" required_argument "t") p "grf"
                    ltac:(simpl; tauto) eq_refl)).
    reflexivity.
  - apply (proj2 (missing_argument_is_ignored
                    (mkopt "file" required_argument "f") q "grf"
                    ltac:(simpl; tauto) eq_refl)).
    + unfold odd_short_forms. simpl.
      intros [H | [H | [H | []]]]; discriminate H.
    + reflexivity.
Defined.

(** ** Scanning, then validating *)

Lemma checkArguments_accepts_iff_bool (a : ArgumentHandler) (o : list output) :
  checkArguments (mkprocess a o) = (Normal tt, mkprocess a o)
  <-> existsb (violated a) rules = false.
Proof.
  run_check. cbn [this existsb]. unfold is_instrumental.
  destruct (string_empty (file a)); cbn [orb]; [split; discriminate |].
  destruct (string_empty (predict a) && string_empty (depvarname a));
    cbn [orb]; [split; discriminate |].
  destruct (treetype a); cbn [andb orb].
  - destruct (negb (empty (alwayssplitvars a))),
      (negb (string_empty (splitweights a))); cbn;
      split; first [reflexivity | discriminate].
  - destruct (string_empty (instrumentvarname a)); cbn [orb];
      [split; discriminate |].
    destruct (string_empty (statusvarname a)); cbn [orb];
      [split; discriminate |].
    destruct (negb (empty (alwayssplitvars a))),
      (negb (string_empty (splitweights a))); cbn;
      split; first [reflexivity | discriminate].
Qed.

Lemma string_empty_iff (s : string) : string_empty s = false <-> s <> "".
Proof. unfold string_empty. apply String.eqb_neq. Qed.

Lemma empty_iff {A} (l : list A) : empty l = true <-> l = [].
Proof. destruct l; cbn; split; congruence. Qed.

(** X10: [checkArguments] returns without an exception exactly for the
    configurations that have an input file, a forest to predict with or
    a dependent variable, the instrument and the status variable when
    the tree type is Instrumental, and not both split weights and
    variables to always split on. *)
Theorem checkArguments_accepts_iff (p : process) :
  checkArguments p = (Normal tt, p)
  <-> file (this p) <> ""
      /\ (predict (this p) <> "" \/ depvarname (this p) <> "")
      /\ (treetype (this p) = TREE_INSTRUMENTAL ->
          instrumentvarname (this p) <> "" /\ statusvarname (this p) <> "")
      /\ (alwayssplitvars (this p) = [] \/ splitweights (this p) = "").
Proof.
  destruct p as [a o]. cbn [this].
  rewrite checkArguments_accepts_iff_bool.
  cbn [existsb rules violated]. unfold is_instrumental.
  rewrite <- !string_empty_iff, <- (empty_iff (alwayssplitvars a)).
  assert (Hs : splitweights a = "" <-> string_empty (splitweights a) = true)
    by (unfold string_empty; symmetry; apply String.eqb_eq).
  rewrite Hs.
  destruct (string_empty (file a)), (string_empty (predict a)),
    (string_empty (depvarname a)), (treetype a),
    (string_empty (instrumentvarname a)), (string_empty (statusvarname a)),
    (empty (alwayssplitvars a)), (string_empty (splitweights a)); cbn;
    intuition congruence.
Qed.

Lemma checkArguments_accepts_iff_witness :
  let p :=
    mkprocess
      (set_splitweights "w.txt"
         (set_predict "forest" (set_file "in.csv" (new_ArgumentHandler 0 []))))
      [] in
  checkArguments p = (Normal tt, p).
Proof.
  intro p. apply (proj2 (checkArguments_accepts_iff p)).
  split; [discriminate | split; [left; discriminate | split]].
  - discriminate.
  - left. reflexivity.
Defined.

(** X11: with an input file, a dependent variable and a number of trees on
    the command line, each with its long option, the scan returns 0,
    stores the three values, leaves every other member at its default,
    and the validation accepts the configuration. *)
Theorem scan_then_validate_accepts :
  forall threads argv0 f d nt n,
    f <> "" -> d <> "" -> std_stoi nt = Normal n -> 1 <= n ->
    let p :=
      mkprocess
        (new_ArgumentHandler threads
           [argv0; "--file"; f; "--depvarname"; d; "--ntree"; nt]) [] in
    let a := set_ntree n (set_depvarname d (set_file f (this p))) in
    processArguments p = (Normal 0, mkprocess a [])
    /\ checkArguments (mkprocess a []) = (Normal tt, mkprocess a []).
Proof.
  intros threads argv0 f d nt n Hf Hd Hnt Hn p a. split.
  - unfold processArguments, member, bind at 1. cbn [this].
    unfold getopt_long. cbn [p this new_ArgumentHandler argv tl].
    rewrite (proj1 (scan_required (mkopt "file" required_argument "f") f _
                      ltac:(simpl; tauto) eq_refl)).
    rewrite (proj1 (scan_required (mkopt "depvarname" required_argument "D")
                      d _ ltac:(simpl; tauto) eq_refl)).
    rewrite (proj1 (scan_required (mkopt "ntree" required_argument "t") nt _
                      ltac:(simpl; tauto) eq_refl)).
    cbn [scan fst snd val]. run. rewrite Hnt.
    destruct (Z.ltb_spec n 1); [lia |]. reflexivity.
  - apply checkArguments_accepts_iff_bool.
    cbn [existsb rules violated]. unfold is_instrumental.
    subst a p. members. cbn [this new_ArgumentHandler file predict depvarname
      treetype alwayssplitvars splitweights].
    apply string_empty_iff in Hf, Hd. rewrite Hf, Hd. reflexivity.
Qed.

Lemma scan_then_validate_accepts_witness :
  let p :=
    mkprocess
      (new_ArgumentHandler 0
         ["grf"; "--file"; "in.csv"; "--depvarname"; "y"; "--ntree"; "100"])
      [] in
  let a := set_ntree 100 (set_depvarname "y" (set_file "in.csv" (this p))) in
  processArguments p = (Normal 0, mkprocess a [])
  /\ checkArguments (mkprocess a []) = (Normal tt, mkprocess a []).
Proof.
  apply (scan_then_validate_accepts 0 "grf" "in.csv" "y" "100" 100);
    [discriminate | discriminate | reflexivity | lia].
Defined.

(** X12: without an option for the input file the validation fails, and on
    the input file before anything else: when [file] is empty before
    the scan, the scan returns 0 and [getopt_long] has returned no
    ['f'], [checkArguments] throws the error of the missing input
    file. *)
Theorem no_file_option_fails_validation p p' :
  file (this p) = "" ->
  (forall optarg,
     ~ In ("f"%char, optarg)
         (fst (getopt_long (argv (this p)) short_options long_options))) ->
  processArguments p = (Normal 0, p') ->
  checkArguments p' = (Thrown (rule_error input_file_present), p').
Proof.
  intros Hf Hno H.
  apply processArguments_cases in H as
    [(_ & p1 & Hw & ->) | (c & oa & p1 & r0 & Hreach & Hs & Hl)].
  - assert (Hk : Text (file (this p1)) = Text (file (this p))).
    { refine (later_options_keep (mkscalar "f" (fun a => Text (file a)))
                _ p p1 _ Hno Hw).
      simpl; tauto. }
    inversion Hk as [Hfile]. rewrite Hf in Hfile.
    run_check. cbn [this]. unfold string_empty. rewrite Hfile. reflexivity.
  - exfalso. destruct r0 as [[v |] | e |]; inversion Hl; subst.
    apply switch_returns in Hs as (Hv & _). discriminate Hv.
Qed.

Lemma no_file_option_fails_validation_witness :
  let p :=
    mkprocess (new_ArgumentHandler 0 ["grf"; "--depvarname"; "y"; "in.csv"]) [] in
  let p' := mkprocess (set_depvarname "y" (this p)) [OtherParameter "in.csv"] in
  checkArguments p' = (Thrown (rule_error input_file_present), p').
Proof.
  intros p p'. apply (no_file_option_fails_validation p p').
  - reflexivity.
  - intros optarg [H | []]. discriminate H.
  - reflexivity.
Defined.

(** ** The integer options *)

(** X13: whatever its argument, an integer option either lets the scan go
    on or throws: it never returns from the function.  When the scan
    goes on, the member holds a value from the option's minimum up to
    [INT_MAX], so the [int] converts to the unsigned member unchanged,
    and nothing else of the process has changed. *)
Theorem integer_option_stores_an_int o optarg p r p' :
  In o integer_options ->
  switch (int_val o) optarg p = (Normal r, p') ->
  r = None
  /\ exists n, int_min o <= n <= INT_MAX
               /\ p' = with_this (int_set o n (this p)) p.
Proof.
  intros Ho H. simpl in Ho.
  repeat (destruct Ho as [<- | Ho]; [| try contradiction]);
    cbn [int_val int_min int_set] in *;
    revert H; run; destruct optarg as [arg |]; try discriminate;
    destruct (std_stoi arg) as [n | e |] eqn:E; try discriminate;
    match goal with
    | |- context [n <? ?k] => destruct (Z.ltb_spec n k); try discriminate
    end;
    intros Hp; inversion Hp; subst; (split; [reflexivity |]);
    exists n; (split; [| reflexivity]);
    pose proof (std_stoi_int _ _ E); lia.
Qed.

Lemma integer_option_stores_an_int_witness :
  let p := mkprocess (new_ArgumentHandler 0 []) [] in
  None = (@None Z)
  /\ exists n, 0 <= n <= INT_MAX
               /\ with_this (set_seed 2147483647 (this p)) p
                  = with_this (set_seed n (this p)) p.
Proof.
  intro p.
  apply (integer_option_stores_an_int (mkint "z" "seed" 0 set_seed seed)
           (Some "  +2147483647 trailing") p None
           (with_this (set_seed 2147483647 (this p)) p)).
  - simpl. tauto.
  - reflexivity.
Defined.

Lemma processArguments_validated_witness :
  let p :=
    mkprocess
      (new_ArgumentHandler 0 ["grf"; "--ntree"; "7"; "--fraction"; "0.5"]) [] in
  let half := S754_finite false 4503599627370496 (-53) in
  validated (this p) (set_fraction half (set_ntree 7 (this p))).
Proof.
  intros p half.
  apply (processArguments_validated p
           (with_this (set_fraction half (set_ntree 7 (this p))) p) 0).
  reflexivity.
Defined.

(** ** What the two range tests let through *)

Lemma nan_passes (d : double) :
  is_nan d = true ->
  dgt d (double_of_int 1) || dle d (double_of_int 0) = false
  /\ dge d (double_of_int 1) || dle d (double_of_int 0) = false.
Proof. destruct d; try discriminate. intros _. split; reflexivity. Qed.

(** X14: the fraction option lets the scan go on exactly when its argument
    converts to a number in (0,1] or to a NaN; the member then holds
    that value and nothing else has changed. *)
Theorem fraction_accepted_iff arg p p' :
  switch "F" (Some arg) p = (Normal None, p')
  <-> exists d,
        std_stod arg = Normal d
        /\ (fraction_valid d = true \/ is_nan d = true)
        /\ p' = with_this (set_fraction d (this p)) p.
Proof.
  split.
  - run. destruct (std_stod arg) as [d | e |]; try discriminate.
    members.
    destruct (dgt d (double_of_int 1) || dle d (double_of_int 0)) eqn:T;
      try discriminate.
    intros H; inversion H; subst. exists d.
    split; [reflexivity | split; [| reflexivity]].
    now apply fraction_test_passed.
  - intros (d & Ha & [Hd | Hd] & ->).
    + now apply fraction_accepts.
    + run. rewrite Ha. members.
      rewrite (proj1 (nan_passes d Hd)). reflexivity.
Qed.

Lemma fraction_accepted_iff_witness :
  let p := mkprocess (new_ArgumentHandler 0 []) [] in
  switch "F" (Some "1") p
  = (Normal None, with_this (set_fraction (double_of_int 1) (this p)) p).
Proof.
  intro p.
  apply (proj2 (fraction_accepted_iff "1" p
                  (with_this (set_fraction (double_of_int 1) (this p)) p))).
  exists (double_of_int 1).
  split; [reflexivity | split; [left; reflexivity | reflexivity]].
Defined.

Lemma push_quantile_iff arg p p' :
  push_quantile arg p = (Normal tt, p')
  <-> exists q, pushed_quantile arg q /\ p' = pushed [q] p.
Proof.
  unfold push_quantile, pushed_quantile. split.
  - run. destruct (std_stod arg) as [d | e |]; try discriminate.
    destruct (dge d (double_of_int 1) || dle d (double_of_int 0)) eqn:T;
      try discriminate.
    intros H; inversion H; subst. exists d.
    split; [split; [reflexivity | now apply quantile_test_passed] |].
    reflexivity.
  - intros (q & (Ha & Hq) & ->). run. rewrite Ha.
    assert (T : dge q (double_of_int 1) || dle q (double_of_int 0) = false).
    { destruct Hq as [Hq | Hq]; [| exact (proj2 (nan_passes q Hq))].
      apply andb_prop in Hq as [H0 H1].
      change (dlt (double_of_int 0) q = true) in H0.
      change (dlt q (double_of_int 1) = true) in H1.
      rewrite (dlt_not_dge _ _ H1), (dlt_not_dle _ _ H0). reflexivity. }
    rewrite T. reflexivity.
Qed.

Lemma for_each_push_iff args p p' :
  for_each args push_quantile p = (Normal tt, p')
  <-> exists qs, Forall2 pushed_quantile args qs /\ p' = pushed qs p.
Proof.
  revert p; induction args as [| arg args IH]; intro p.
  - cbn [for_each]. unfold ret. split.
    + intros H; inversion H; subst. exists []. rewrite pushed_nil.
      split; [constructor | reflexivity].
    + intros (qs & H & ->). inversion H; subst. rewrite pushed_nil.
      reflexivity.
  - cbn [for_each]. unfold bind. split.
    + destruct (push_quantile arg p) as [[[] | e |] p1] eqn:E;
        try discriminate.
      apply push_quantile_iff in E as (q & Hq & ->).
      intros H. apply IH in H as (qs & Hqs & ->).
      exists (q :: qs). split; [now constructor | apply pushed_cons].
    + intros (qs & H & ->). inversion H as [| ? q ? qs' Hq Hqs]; subst.
      assert (E : push_quantile arg p = (Normal tt, pushed [q] p))
        by (apply push_quantile_iff; eauto).
      rewrite E. apply IH. exists qs'.
      split; [exact Hqs | symmetry; apply pushed_cons].
Qed.

(** X15: the quantiles option lets the scan go on exactly when every
    element of its comma-delimited argument converts to a number
    strictly between 0 and 1 or to a NaN; the values are then at the
    end of [quantiles], in the order of the list, after those that were
    there, and nothing else has changed. *)
Theorem quantiles_accepted_iff arg p p' :
  switch "q" (Some arg) p = (Normal None, p')
  <-> exists qs,
        Forall2 pushed_quantile (splitString [] arg ",") qs
        /\ p' = pushed qs p.
Proof.
  rewrite switch_quantiles. unfold bind. split.
  - destruct (for_each _ _ p) as [[[] | e |] p1] eqn:E; try discriminate.
    intros H; inversion H; subst. now apply for_each_push_iff.
  - intros H. apply for_each_push_iff in H. rewrite H. reflexivity.
Qed.

Lemma quantiles_accepted_iff_witness :
  let p := mkprocess (new_ArgumentHandler 0 []) [] in
  let half := S754_finite false 4503599627370496 (-53) in
  switch "q" (Some "0.5,nan") p = (Normal None, pushed [half; S754_nan] p).
Proof.
  intros p half.
  apply (proj2 (quantiles_accepted_iff "0.5,nan" p
                  (pushed [half; S754_nan] p))).
  exists [half; S754_nan]. split; [| reflexivity].
  apply Forall2_cons; [split; [reflexivity | left; reflexivity] |].
  apply Forall2_cons; [split; [reflexivity | right; reflexivity] |].
  apply Forall2_nil.
Defined.

(** ** The options with a text *)

(** X16: an option with a text takes the argument that follows it whatever
    it is, the empty text, a text with a dash in front or the spelling
    of another option, and stores it unchanged; given alone on the
    command line, it makes [processArguments] return 0 with that one
    member set. *)
Theorem text_option_stores_any_text :
  forall o set p argv0 x,
    In (o, set) text_options ->
    argv (this p) = [argv0; long_spelling o; x] ->
    processArguments p = (Normal 0, with_this (set x (this p)) p).
Proof.
  intros o set p argv0 x Ho Hargv.
  assert (Hin : In o long_options /\ has_arg o = required_argument).
  { simpl in Ho.
    repeat (destruct Ho as [Ho | Ho]; [inversion Ho; subst |]);
      try contradiction; (split; [simpl; tauto | reflexivity]). }
  destruct Hin as [Hin Ha].
  unfold processArguments, member, bind at 1. cbn [this].
  unfold getopt_long. rewrite Hargv. cbn [tl].
  rewrite (proj1 (scan_required o x [] Hin Ha)). cbn [scan fst snd].
  simpl in Ho.
  repeat (destruct Ho as [Ho | Ho]; [inversion Ho; subst |]);
    try contradiction; cbn [val]; destruct p; reflexivity.
Qed.

Lemma text_option_stores_any_text_witness :
  let p := mkprocess (new_ArgumentHandler 0 ["grf"; "--file"; "--help"]) [] in
  processArguments p = (Normal 0, with_this (set_file "--help" (this p)) p).
Proof.
  intro p.
  apply (text_option_stores_any_text (mkopt "file" required_argument "f")
           set_file p "grf" "--help").
  - simpl. tauto.
  - reflexivity.
Defined.

(** ** Split weights and variables to always split on *)

(** X17: given both, in either order, on a configuration that passes the
    checks before, the scan builds the same object and the validation
    fails with the error of the two options used together.  The split
    weights are a text that is not empty, the variables a list with at
    least one element. *)
Theorem weights_exclusive_in_either_order p w v :
  w <> "" ->
  splitString [] v "," <> [] ->
  file (this p) <> "" ->
  predict (this p) <> "" \/ depvarname (this p) <> "" ->
  (treetype (this p) = TREE_INSTRUMENTAL ->
   instrumentvarname (this p) <> "" /\ statusvarname (this p) <> "") ->
  exists p',
    while_getopt [("S"%char, Some w); ("A"%char, Some v)] p = (Normal None, p')
    /\ while_getopt [("A"%char, Some v); ("S"%char, Some w)] p
       = (Normal None, p')
    /\ checkArguments p' = (Thrown (rule_error weights_exclusive), p').
Proof.
  intros Hw Hv Hf Hpd Hi. destruct p as [a o]. cbn [this] in *.
  eexists. split; [reflexivity | split; [reflexivity |]].
  run_check. members.
  apply string_empty_iff in Hf, Hw. rewrite Hf.
  assert (Hpd' : string_empty (predict a) && string_empty (depvarname a)
                 = false).
  { destruct Hpd as [H | H]; apply string_empty_iff in H; rewrite H;
      [reflexivity | apply andb_false_r]. }
  rewrite Hpd'.
  assert (He : empty (splitString (alwayssplitvars a) v ",") = false).
  { unfold splitString in *. cbn [app] in Hv.
    destruct (alwayssplitvars a); [| reflexivity].
    destruct (getline_tokens v "," ""); [contradiction | reflexivity]. }
  rewrite He, Hw. cbn [negb andb].
  destruct (treetype a) eqn:Ht; cbn [andb]; [reflexivity |].
  destruct (Hi eq_refl) as [H1 H2].
  apply string_empty_iff in H1, H2. rewrite H1, H2. reflexivity.
Qed.

Lemma weights_exclusive_in_either_order_witness :
  let p :=
    mkprocess
      (set_depvarname "y" (set_file "in.csv" (new_ArgumentHandler 0 []))) [] in
  exists p',
    while_getopt [("S"%char, Some "a.txt"); ("A"%char, Some "X,Y")] p
      = (Normal None, p')
    /\ while_getopt [("A"%char, Some "X,Y"); ("S"%char, Some "a.txt")] p
       = (Normal None, p')
    /\ checkArguments p' = (Thrown (rule_error weights_exclusive), p').
Proof.
  intro p.
  apply (weights_exclusive_in_either_order p "a.txt" "X,Y");
    try discriminate.
  right. discriminate.
Defined.
